(** * d3-ez components: candleSticks, circularLabels and the line chart

    A shallow embedding of [src/component/candleSticks.js],
    [src/component/circularLabels.js] and the line chart module, with the
    parts of d3 version 4 (d3-array, d3-scale, d3-selection) those files
    call.

    Conventions of the embedding.
    - A JavaScript number is an exact rational ([Q]); [num] adds the
      value [None] for [undefined] and for a result that is not a finite
      number ([NaN]), which every arithmetic operation propagates.
    - A date is its millisecond time value, an integer.  The [date] of a
      candle is such a number, so that [maxDate + 8.64e7] in
      [candleSticks.init] is a sum of numbers (on a [Date] object [+]
      would concatenate strings; that input is not modelled).  What
      [new Date(t)] holds is [JS.newDate t]: the time [t], or no time (an
      Invalid Date) when [t] lies outside the range of dates.  The [key]
      of a line chart value is a number of seconds, or the [Date] an
      earlier conversion left there, which [*] reads as its milliseconds;
      the product is kept as it is, so a statement about the keys the
      line chart stores speaks of products within the range of dates.
    - [scale.nice()] belongs to d3 and its result depends on the release
      of d3-scale and on the rounding of doubles.  [candleSticks.init] is
      therefore given with the domain computation of [nice()] as an
      argument ([initWith], [myWith]); [init] and [my] are the instance
      with [D3.nice_domain], which the examples run with.
    - The closure variables of a component are a record; a call of the
      component or of one of its methods takes the record and returns the
      new one.  An array the code writes into is returned as well.  A
      call that throws ends there: what it had changed is not followed.
    - The DOM below a selection is a list of nodes with their bound data
      and the attributes the components set. *)

From Stdlib Require Import QArith Qabs Qround Qpower ZArith List String Bool Lia Lqa.
Import ListNotations.
Open Scope Q_scope.

(** ** JavaScript values *)

Module JS.

(** A number, or [None] for [undefined] and the [NaN] it coerces to. *)
Definition num := option Q.

Definition lift2 (f : Q -> Q -> Q) (a b : num) : num :=
  match a, b with
  | Some x, Some y => Some (f x y)
  | _, _ => None
  end.

Definition nadd := lift2 Qplus.
Definition nsub := lift2 Qminus.
Definition nmul := lift2 Qmult.

(** [a / b]; a zero divisor gives a non-finite result, carried as [None]. *)
Definition ndiv (a b : num) : num :=
  match a, b with
  | Some x, Some y => if Qeq_bool y 0 then None else Some (x / y)
  | _, _ => None
  end.

(** Numeric equality of two results; [NaN] equals nothing. *)
Definition num_eq (a b : num) : Prop :=
  match a, b with
  | Some x, Some y => x == y
  | _, _ => False
  end.

(** [a > b] on numbers. *)
Definition gt (a b : Q) : bool := negb (Qle_bool a b).

(** [a < b] on numbers. *)
Definition lt (a b : Q) : bool := negb (Qle_bool b a).

(** What a call can end in: a value, or an exception.  [HostTypeError]
    is the [TypeError] the JavaScript runtime or d3 raises (a property
    read on [undefined], a call of a non-function); [ValidationError]
    would be an error thrown by the library's own code. *)
Inductive exn := HostTypeError | ValidationError (msg : string).

Inductive outcome (A : Type) :=
| Ok (a : A)
| Threw (e : exn).
Arguments Ok {A} a.
Arguments Threw {A} e.

Definition bind {A B} (c : outcome A) (k : A -> outcome B) : outcome B :=
  match c with
  | Ok a => k a
  | Threw e => Threw e
  end.

(** [Math.min(a, b)]. *)
Definition Math_min (a b : Q) : Q := if Qle_bool a b then a else b.

(** What a configuration method returns: the component itself (so that
    calls chain), or a value. *)
Inductive returned (A : Type) :=
| Component
| Value (a : A).
Arguments Component {A}.
Arguments Value {A} a.

(** [n.toFixed(0)]: the nearest integer, a tie going away from zero. *)
Definition toFixed0 (q : Q) : Z :=
  if Qle_bool 0 q then Qfloor (q + (1 # 2)) else (- Qfloor ((- q) + (1 # 2)))%Z.

(** [ToIntegerOrInfinity] on a finite number: the fraction is dropped. *)
Definition truncate (q : Q) : Z :=
  if Qle_bool 0 q then Qfloor q else Qceiling q.

(** The greatest time value of a [Date], in milliseconds either side of
    the epoch. *)
Definition maxTime : Z := 8640000000000000.

(** The time value of [new Date(t)] for a number [t], which is
    [TimeClip(t)]: no time, an Invalid Date, when [t] is not a finite
    number or lies more than [maxTime] from the epoch. *)
Definition newDate (t : num) : num :=
  match t with
  | Some q =>
      if Qle_bool (Qabs q) (inject_Z maxTime)
      then Some (inject_Z (truncate q))
      else None
  | None => None
  end.

End JS.

Import JS.

Notation "x <- c ;; k" := (JS.bind c (fun x => k))
  (at level 61, c at next level, right associativity).

(** ** The parts of d3 the components call *)

Module D3.

(** *** d3-array: [d3.min], [d3.max], [d3.extent] with an accessor *)

(** The inner loop of [d3.min]: [if (min > value) min = value]. *)
Fixpoint min_rest (min : Q) (rest : list Q) : Q :=
  match rest with
  | [] => min
  | value :: rest' => min_rest (if JS.gt min value then value else min) rest'
  end.

(** The inner loop of [d3.max]: [if (value > max) max = value]. *)
Fixpoint max_rest (max : Q) (rest : list Q) : Q :=
  match rest with
  | [] => max
  | value :: rest' => max_rest (if JS.gt value max then value else max) rest'
  end.

(** [d3.min(values, valueof)]: [undefined] on an empty array. *)
Definition min {A} (values : list A) (valueof : A -> Q) : num :=
  match map valueof values with
  | [] => None
  | value :: rest => Some (min_rest value rest)
  end.

Definition max {A} (values : list A) (valueof : A -> Q) : num :=
  match map valueof values with
  | [] => None
  | value :: rest => Some (max_rest value rest)
  end.

(** The inner loop of [d3.extent]:
    [if (min > value) min = value; if (max < value) max = value]. *)
Fixpoint extent_rest (min max : Q) (rest : list Q) : Q * Q :=
  match rest with
  | [] => (min, max)
  | value :: rest' =>
      extent_rest (if JS.gt min value then value else min)
                  (if JS.lt max value then value else max) rest'
  end.

(** [d3.extent(values, valueof)]: the array [[min, max]]. *)
Definition extent {A} (values : list A) (valueof : A -> Q) : list num :=
  match map valueof values with
  | [] => [None; None]
  | value :: rest =>
      let (mn, mx) := extent_rest value value rest in [Some mn; Some mx]
  end.

(** What the properties say of a result: [m] is the least, or the
    greatest, of the values the accessor gives. *)
Definition least {A} (values : list A) (valueof : A -> Q) (m : Q) : Prop :=
  (exists d, In d values /\ m = valueof d) /\
  forall d, In d values -> m <= valueof d.

Definition greatest {A} (values : list A) (valueof : A -> Q) (m : Q) : Prop :=
  (exists d, In d values /\ m = valueof d) /\
  forall d, In d values -> valueof d <= m.

(** *** d3-scale: ordinal scales *)

(** An ordinal scale: its domain, each value under the string key
    [d + ""] that d3 indexes it by, and its range.  The [unknown] value
    is left at its default, [implicit]. *)
Record ordinal := mkOrdinal {
  o_domain : list string;
  o_range  : list string
}.

(** [index.get(key)]: the one-based position of [key] in the domain. *)
Fixpoint index_get (key : string) (domain : list string) : option nat :=
  match domain with
  | [] => None
  | k :: domain' =>
      if String.eqb key k then Some 1%nat
      else option_map S (index_get key domain')
  end.

(** [range[(i - 1) % range.length]]; [undefined] on an empty range. *)
Definition range_at (range : list string) (i : nat) : option string :=
  match range with
  | [] => None
  | _ => nth_error range (Nat.modulo (i - 1) (List.length range))
  end.

(** [scale(d)]: an unseen key is pushed on the domain first.  Returns
    the range value and the scale, which the call may have extended. *)
Definition ordinal_call (s : ordinal) (key : string) : option string * ordinal :=
  match index_get key (o_domain s) with
  | Some i => (range_at (o_range s) i, s)
  | None =>
      let domain' := (o_domain s ++ [key])%list in
      (range_at (o_range s) (List.length domain'),
       mkOrdinal domain' (o_range s))
  end.

(** [scale.domain(_)]: the keys in order, a repeated key kept once. *)
Fixpoint ordinal_domain (acc : list string) (values : list string) : list string :=
  match values with
  | [] => acc
  | key :: values' =>
      ordinal_domain
        (match index_get key acc with
         | Some _ => acc
         | None => (acc ++ [key])%list
         end) values'
  end.

(** [d3.scaleOrdinal().range(range).domain(domain)]. *)
Definition scaleOrdinal (range domain : list string) : ordinal :=
  mkOrdinal (ordinal_domain [] domain) range.

(** The key of a boolean: [true + ""] and [false + ""]. *)
Definition key_of_bool (b : bool) : string :=
  if b then "true"%string else "false"%string.

(** The scale maps [key] to [v] and a call with [key] leaves it as it
    is: [key] is in its domain. *)
Definition settled (s : ordinal) (key : string) (v : option string) : Prop :=
  ordinal_call s key = (v, s).

(** *** d3-array: [tickStep] *)

(** The scan behind [Math.floor(Math.log(q) / Math.LN10)]: the largest
    [p], from [p] downwards, with [10 ^ p <= q]. *)
Fixpoint log10_down (fuel : nat) (p : Z) (q : Q) : Z :=
  match fuel with
  | O => p
  | S fuel' =>
      if Qle_bool (Qpower 10 p) q then p else log10_down fuel' (p - 1) q
  end.

(** [Math.floor(Math.log(q) / Math.LN10)] for a positive [q]. *)
Definition floor_log10 (q : Q) : Z :=
  let hi := (Z.log2 (Qnum q) + 1)%Z in
  let lo := (- (Z.log2 (Zpos (Qden q)) + 1))%Z in
  log10_down (Z.to_nat (hi - lo)) hi q.

(** [tickStep(start, stop, count)]; [e10], [e5] and [e2] are the square
    roots of 50, 10 and 2, so [error >= e10] is [error * error >= 50]. *)
Definition tickStep (start stop count : Q) : Q :=
  let step0 := Qabs (stop - start) / (if JS.gt count 0 then count else 0) in
  if Qle_bool step0 0 then 0
  else
    let step1 := Qpower 10 (floor_log10 step0) in
    let error := step0 / step1 in
    let step1 :=
      if Qle_bool 50 (error * error) then step1 * 10
      else if Qle_bool 10 (error * error) then step1 * 5
      else if Qle_bool 2 (error * error) then step1 * 2
      else step1 in
    if JS.lt stop start then - step1 else step1.

Definition floor (q : Q) : Q := inject_Z (Qfloor q).
Definition ceil (q : Q) : Q := inject_Z (Qceiling q).

(** *** d3-scale: continuous scales *)

(** [deinterpolateLinear(a, b)]: [constant(b)] with [b = 0] when the
    two ends coincide. *)
Definition deinterpolateLinear (a b x : Q) : Q :=
  if Qeq_bool (b - a) 0 then b - a else (x - a) / (b - a).

(** [interpolateNumber(a, b)]. *)
Definition interpolateNumber (a b t : Q) : Q := a + (b - a) * t.

(** [bimap(domain, range, ...)], the map of a scale whose domain or
    range has two values: it reads [domain[0]], [domain[1]], [range[0]]
    and [range[1]]. *)
Definition bimap (domain range : list num) (x : Q) : num :=
  match nth 0 domain None, nth 1 domain None, nth 0 range None, nth 1 range None with
  | Some d0, Some d1, Some r0, Some r1 =>
      Some (if JS.lt d1 d0
            then interpolateNumber r1 r0 (deinterpolateLinear d1 d0 x)
            else interpolateNumber r0 r1 (deinterpolateLinear d0 d1 x))
  | _, _, _, _ => None
  end.

Inductive scaleKind := Linear | Time.

(** A continuous scale as the components see one: [scale.domain()],
    [scale.range()] and the function [scale(x)].  A time scale holds the
    time values of its domain dates. *)
Record scale := mkScale {
  s_kind   : scaleKind;
  s_domain : list num;
  s_range  : list num;
  s_call   : Q -> num
}.

(** [d3.scaleLinear().domain(domain).range(range)], both of two values. *)
Definition scaleLinear (domain range : list num) : scale :=
  mkScale Linear domain range (bimap domain range).

(** [d3.scaleTime().domain(domain).range(range)], both of two values. *)
Definition scaleTime (domain range : list num) : scale :=
  mkScale Time domain range (bimap domain range).

Definition set_first (d : list num) (v : num) : list num :=
  match d with
  | [] => []
  | _ :: d' => v :: d'
  end.

Fixpoint set_last (d : list num) (v : num) : list num :=
  match d with
  | [] => []
  | [_] => [v]
  | x :: d' => x :: set_last d' v
  end.

(** The domain [linear.nice()] computes with the default count 10, as
    d3-scale 1.0.3 to 1.0.5 compute it and on exact numbers: [d[0]] and
    [d[i]] are moved out to multiples of the tick step of the domain
    once widened.  Later releases widen the ends a second time, and
    doubles round where exact numbers do not, so that they give another
    domain for some inputs ([[0.5, 3.5]] stays here and becomes
    [[0, 4]] there). *)
Definition nice_domain (d : list num) : list num :=
  match hd None d, last d None with
  | Some start, Some stop =>
      let step := tickStep start stop 10 in
      if Qeq_bool step 0 then d
      else
        let step := tickStep (floor (start / step) * step)
                             (ceil (stop / step) * step) 10 in
        set_last (set_first d (Some (floor (start / step) * step)))
                 (Some (ceil (stop / step) * step))
  | _, _ => d
  end.

(** [d3.dispatch(types...)]: an object with the methods [on], [call],
    [apply] and [copy]; it is not a function. *)
Record dispatch := mkDispatch { d_types : list string }.

(** [scale.nice()] on a linear scale built by [scaleLinear], for a
    computation [niceDomain] of the new domain: the domain is replaced,
    kind and range stay. *)
Definition niceWith (niceDomain : list num -> list num) (s : scale) : scale :=
  let d := niceDomain (s_domain s) in
  mkScale (s_kind s) d (s_range s) (bimap d (s_range s)).

(** [scale.nice()] with the domain computation [nice_domain]. *)
Definition nice : scale -> scale := niceWith nice_domain.

End D3.

(** ** The candleSticks component *)

Module CandleSticks.

(** One value of a series: [{ date, open, high, low, close }]. *)
Record candle := mkCandle {
  date  : Z;
  open  : Q;
  high  : Q;
  low   : Q;
  close : Q
}.

(** A series: [{ key, values }]. *)
Record series := mkSeries {
  key    : string;
  values : list candle
}.

(** The closure variables of one component. *)
Record state := mkState {
  width       : Q;
  height      : Q;
  colors      : list string;
  dispatch    : D3.dispatch;
  xScale      : option D3.scale;
  yScale      : option D3.scale;
  colorScale  : option D3.ordinal;
  candleWidth : Q;
  classed     : string
}.

Definition customEvents : list string :=
  ["customValueMouseOver"; "customValueMouseOut"; "customValueClick";
   "customSeriesMouseOver"; "customSeriesMouseOut"; "customSeriesClick"]%string.

(** The domain [[true, false]] of the colour scale, as keys. *)
Definition upDownDomain : list string :=
  [D3.key_of_bool true; D3.key_of_bool false].

(** The state the constructor function leaves: the default properties. *)
Definition default : state :=
  let colors := ["green"; "red"]%string in
  {| width := 400;
     height := 400;
     colors := colors;
     dispatch := D3.mkDispatch customEvents;
     xScale := None;
     yScale := None;
     colorScale := Some (D3.scaleOrdinal colors upDownDomain);
     candleWidth := 3;
     classed := "candleSticks" |}.

Definition date_of (d : candle) : Q := inject_Z (date d).

(** [init(data)]; [data] is [undefined] when the selection has no first
    datum, and reading [data.values] then throws.  [niceDomain] is the
    domain computation of d3's [nice()]. *)
Definition initWith (niceDomain : list num -> list num)
           (st : state) (data : option series) : outcome state :=
  match data with
  | None => Threw HostTypeError
  | Some data =>
      let maxDate := D3.max (values data) date_of in
      let minDate := D3.min (values data) date_of in
      let xDomain := [newDate (nsub minDate (Some 86400000));
                      newDate (nadd maxDate (Some 86400000))] in
      let yDomain := [D3.min (values data) low;
                      D3.max (values data) high] in
      Ok {| width := width st;
            height := height st;
            colors := colors st;
            dispatch := dispatch st;
            xScale :=
              Some (match xScale st with
                    | None => D3.scaleTime xDomain [Some 0; Some (width st)]
                    | Some xScale => xScale
                    end);
            yScale :=
              Some (match yScale st with
                    | None =>
                        D3.niceWith niceDomain
                          (D3.scaleLinear yDomain [Some (height st); Some 0])
                    | Some yScale => yScale
                    end);
            colorScale :=
              Some (match colorScale st with
                    | None => D3.scaleOrdinal (colors st) upDownDomain
                    | Some colorScale => colorScale
                    end);
            candleWidth := candleWidth st;
            classed := classed st |}
  end.

(** [init(data)] with the domain computation [D3.nice_domain]. *)
Definition init : state -> option series -> outcome state :=
  initWith D3.nice_domain.

(** [isUpDay(d)]. *)
Definition isUpDay (d : candle) : bool := JS.gt (close d) (open d).

(** *** The DOM the component draws into *)

Record point := mkPoint { px : num; py : num }.

(** A [rect.open-close-bar] with the attributes the component sets. *)
Record rect := mkRect {
  r_x      : num;
  r_y      : num;
  r_width  : num;
  r_height : num
}.

(** A [g.candle]: its bound datum, its colours and its two children, the
    [path.high-low-line] (the points of its [d]) and the bar. *)
Record candleNode := mkCandleNode {
  c_datum   : candle;
  c_fill    : option string;
  c_stroke  : option string;
  c_highLow : option (list point);
  c_bar     : option rect
}.

(** A node of the selection the component is called on: the series
    group, with its bound datum ([None] when no datum is bound), its
    class names, its [id] and its [g.candle] children. *)
Record seriesNode := mkSeriesNode {
  g_datum   : option series;
  g_classes : list string;
  g_id      : option string;
  g_candles : list candleNode
}.

(** [selection.classed(name, true)] on the class names of one node. *)
Definition classed_add (name : string) (classes : list string) : list string :=
  if existsb (String.eqb name) classes then classes
  else (classes ++ [name])%list.

Definition selection := list seriesNode.

(** *** The data join of [selectAll(...).data(...)], by index *)

(** The update selection: the nodes that get a datum, rebound to it. *)
Definition join_update (nodes : list candleNode) (data : list candle)
  : list candleNode :=
  map (fun nd : candleNode * candle =>
         let (n, d) := nd in
         mkCandleNode d (c_fill n) (c_stroke n) (c_highLow n) (c_bar n))
      (combine nodes data).

(** The enter selection: the data that found no node. *)
Definition join_enter (nodes : list candleNode) (data : list candle)
  : list candle :=
  skipn (List.length nodes) data.

(** The exit selection: the nodes that got no datum. *)
Definition join_exit (nodes : list candleNode) (data : list candle)
  : list candleNode :=
  skipn (List.length data) nodes.

(** [.attr(name, function(d) { return colorScale(isUpDay(d)); })] over
    the entering data, in order; the scale is the one object throughout. *)
Fixpoint attr_color (colorScale : D3.ordinal) (ds : list candle)
  : list (option string) * D3.ordinal :=
  match ds with
  | [] => ([], colorScale)
  | d :: ds' =>
      let (c, colorScale1) :=
        D3.ordinal_call colorScale (D3.key_of_bool (isUpDay d)) in
      let (cs, colorScale2) := attr_color colorScale1 ds' in
      (c :: cs, colorScale2)
  end.

(** The [g.candle] appended for an entering datum. *)
Definition appendCandle (d : candle) (fs : option string * option string)
  : candleNode :=
  mkCandleNode d (fst fs) (snd fs) None None.

Section Shapes.

Variables (xScale yScale : D3.scale) (candleWidth : Q).

(** The two points passed to [line] in [highLowLines]. *)
Definition highLowPoints (d : candle) : list point :=
  [mkPoint (D3.s_call xScale (date_of d)) (D3.s_call yScale (high d));
   mkPoint (D3.s_call xScale (date_of d)) (D3.s_call yScale (low d))].

(** [highLowLines(bars)]: a candle without the path gets one. *)
Definition highLowLines (n : candleNode) : candleNode :=
  mkCandleNode (c_datum n) (c_fill n) (c_stroke n)
    (match c_highLow n with
     | Some path => Some path
     | None => Some (highLowPoints (c_datum n))
     end)
    (c_bar n).

(** The attributes of the [rect] appended in [openCloseBars]. *)
Definition openCloseRect (d : candle) : rect :=
  {| r_x := nsub (D3.s_call xScale (date_of d)) (Some candleWidth);
     r_y := if isUpDay d then D3.s_call yScale (close d)
            else D3.s_call yScale (open d);
     r_width := Some (candleWidth * 2);
     r_height :=
       if isUpDay d
       then nsub (D3.s_call yScale (open d)) (D3.s_call yScale (close d))
       else nsub (D3.s_call yScale (close d)) (D3.s_call yScale (open d)) |}.

(** [openCloseBars(bars)]: a candle without the bar gets one. *)
Definition openCloseBars (n : candleNode) : candleNode :=
  mkCandleNode (c_datum n) (c_fill n) (c_stroke n) (c_highLow n)
    (match c_bar n with
     | Some bar => Some bar
     | None => Some (openCloseRect (c_datum n))
     end).

End Shapes.

(** *** The component function [my(selection)] *)

Definition set_colorScale (v : option D3.ordinal) (st : state) : state :=
  mkState (width st) (height st) (colors st) (dispatch st) (xScale st)
          (yScale st) v (candleWidth st) (classed st).

(** The body of [selection.each(function() { ... })] at one series
    group.  The accessors [d.key] and [d.values] throw on a node without
    a datum.  [candles.exit()] is taken on the merged selection, which
    holds no exit nodes, so [remove()] removes nothing.  The listeners
    registered with [on] are not part of the model. *)
Definition renderGroup (st : state) (g : seriesNode)
  : outcome (state * seriesNode) :=
  match g_datum g with
  | None => Threw HostTypeError
  | Some d =>
      match xScale st, yScale st, colorScale st with
      | Some xScale, Some yScale, Some colorScale =>
          let candlesSelect := join_update (g_candles g) (values d) in
          let entering := join_enter (g_candles g) (values d) in
          let (fills, colorScale1) := attr_color colorScale entering in
          let (strokes, colorScale2) := attr_color colorScale1 entering in
          let candles :=
            (candlesSelect
               ++ map (fun dc => appendCandle (fst dc) (snd dc))
                      (combine entering (combine fills strokes)))%list in
          let candles := map (highLowLines xScale yScale) candles in
          let candles :=
            map (openCloseBars xScale yScale (candleWidth st)) candles in
          Ok (set_colorScale (Some colorScale2) st,
              {| g_datum := Some d;
                 g_classes := classed_add (classed st) (g_classes g);
                 g_id := Some (key d);
                 g_candles :=
                   (candles ++ join_exit (g_candles g) (values d))%list |})
      | _, _, _ => Threw HostTypeError
      end
  end.

(** [selection.each(...)]: the groups in order. *)
Fixpoint each (st : state) (sel : selection) : outcome (state * selection) :=
  match sel with
  | [] => Ok (st, [])
  | g :: sel' =>
      r <- renderGroup st g ;;
      r' <- each (fst r) sel' ;;
      Ok (fst r', snd r :: snd r')
  end.

(** [selection.data()[0]]. *)
Definition first_datum (sel : selection) : option series :=
  match sel with
  | [] => None
  | g :: _ => g_datum g
  end.

(** [my(selection)]: [init] on the first datum, then every group. *)
Definition myWith (niceDomain : list num -> list num)
           (st : state) (sel : selection) : outcome (state * selection) :=
  st1 <- initWith niceDomain st (first_datum sel) ;;
  each st1 sel.

(** [my(selection)] with the domain computation [D3.nice_domain]. *)
Definition my : state -> selection -> outcome (state * selection) :=
  myWith D3.nice_domain.

(** *** Getters and setters

    The argument is [None] for a call without arguments. *)

Definition set_width (v : Q) (st : state) : state :=
  mkState v (height st) (colors st) (dispatch st) (xScale st)
          (yScale st) (colorScale st) (candleWidth st) (classed st).

Definition set_height (v : Q) (st : state) : state :=
  mkState (width st) v (colors st) (dispatch st) (xScale st)
          (yScale st) (colorScale st) (candleWidth st) (classed st).

Definition set_colors (v : list string) (st : state) : state :=
  mkState (width st) (height st) v (dispatch st) (xScale st)
          (yScale st) (colorScale st) (candleWidth st) (classed st).

Definition set_dispatch (v : D3.dispatch) (st : state) : state :=
  mkState (width st) (height st) (colors st) v (xScale st)
          (yScale st) (colorScale st) (candleWidth st) (classed st).

Definition set_xScale (v : option D3.scale) (st : state) : state :=
  mkState (width st) (height st) (colors st) (dispatch st) v
          (yScale st) (colorScale st) (candleWidth st) (classed st).

Definition set_yScale (v : option D3.scale) (st : state) : state :=
  mkState (width st) (height st) (colors st) (dispatch st) (xScale st)
          v (colorScale st) (candleWidth st) (classed st).

Definition set_candleWidth (v : Q) (st : state) : state :=
  mkState (width st) (height st) (colors st) (dispatch st) (xScale st)
          (yScale st) (colorScale st) v (classed st).

Definition my_width (st : state) (arg : option Q)
  : outcome (state * returned Q) :=
  match arg with
  | None => Ok (st, Value (width st))
  | Some v => Ok (set_width v st, Component)
  end.

Definition my_height (st : state) (arg : option Q)
  : outcome (state * returned Q) :=
  match arg with
  | None => Ok (st, Value (height st))
  | Some v => Ok (set_height v st, Component)
  end.

Definition my_colorScale (st : state) (arg : option (option D3.ordinal))
  : outcome (state * returned (option D3.ordinal)) :=
  match arg with
  | None => Ok (st, Value (colorScale st))
  | Some v => Ok (set_colorScale v st, Component)
  end.

Definition my_colors (st : state) (arg : option (list string))
  : outcome (state * returned (list string)) :=
  match arg with
  | None => Ok (st, Value (colors st))
  | Some v => Ok (set_colors v st, Component)
  end.

Definition my_xScale (st : state) (arg : option (option D3.scale))
  : outcome (state * returned (option D3.scale)) :=
  match arg with
  | None => Ok (st, Value (xScale st))
  | Some v => Ok (set_xScale v st, Component)
  end.

Definition my_yScale (st : state) (arg : option (option D3.scale))
  : outcome (state * returned (option D3.scale)) :=
  match arg with
  | None => Ok (st, Value (yScale st))
  | Some v => Ok (set_yScale v st, Component)
  end.

Definition my_candleWidth (st : state) (arg : option Q)
  : outcome (state * returned Q) :=
  match arg with
  | None => Ok (st, Value (candleWidth st))
  | Some v => Ok (set_candleWidth v st, Component)
  end.

(** [my.dispatch]: without arguments it evaluates [dispatch()], a call
    of the dispatch object, which is not a function. *)
Definition my_dispatch (st : state) (arg : option D3.dispatch)
  : outcome (state * returned D3.dispatch) :=
  match arg with
  | None => Threw HostTypeError
  | Some v => Ok (set_dispatch v st, Component)
  end.

(** *** Vocabulary of the properties *)

Definition has_datum (g : seriesNode) : Prop := g_datum g <> None.

(** The candle groups a render appended to group [g], giving [g']: the
    children past those [g] had. *)
Definition created (g g' : seriesNode) : list candleNode :=
  skipn (List.length (g_candles g)) (g_candles g').

(** The [g.candle] as appended and then given its two shapes, for a
    datum [d] coloured [c] on both attributes. *)
Definition drawnCandle (xScale yScale : D3.scale) (candleWidth : Q)
           (dc : candle * option string) : candleNode :=
  mkCandleNode (fst dc) (snd dc) (snd dc)
               (Some (highLowPoints xScale yScale (fst dc)))
               (Some (openCloseRect xScale yScale candleWidth (fst dc))).

(** Group [g'] is [g] after a render with these scales that left the
    colour scale as [colorScale']: the entering data got their candles,
    each in the colour the scale has settled for its classification. *)
Definition drawn (xScale yScale : D3.scale) (candleWidth : Q)
           (colorScale' : D3.ordinal) (g g' : seriesNode) : Prop :=
  exists d fills,
    g_datum g = Some d /\
    Forall2 (fun d v => D3.settled colorScale' (D3.key_of_bool (isUpDay d)) v)
            (join_enter (g_candles g) (values d)) fills /\
    created g g' =
      map (drawnCandle xScale yScale candleWidth)
          (combine (join_enter (g_candles g) (values d)) fills).


(** A scale function that gives numbers and never grows. *)
Definition decreasing (f : Q -> num) : Prop :=
  forall a b, a <= b ->
    exists fa fb, f a = Some fa /\ f b = Some fb /\ fb <= fa.

End CandleSticks.

(** ** The circularLabels component *)

Module CircularLabels.

(** A tick: a number (from [ticks()]) or a band name (from [domain()]). *)
Inductive tick := TNum (q : Q) | TStr (s : string).

(** The radial scale given to the component.  A linear scale has a
    [ticks] method, whose result is carried here; a band scale has none. *)
Inductive radial :=
| RadialLinear (domain : list Q) (range : list num) (ticks : list Q)
| RadialBand (domain : list string) (range : list num).

(** [radialScale.range()]. *)
Definition range_of (s : radial) : list num :=
  match s with
  | RadialLinear _ range _ => range
  | RadialBand _ range => range
  end.

(** The closure variables.  [capitalizeLabels] is the constant [false]:
    nothing assigns it, so a label shows [d.text] as it is. *)
Record state := mkState {
  width       : Q;
  height      : Q;
  radialScale : option radial;
  radius      : option Q;
  textAnchor  : string
}.

Definition default : state :=
  {| width := 400;
     height := 300;
     radialScale := None;
     radius := None;
     textAnchor := "start" |}.

(** The datum of a label: [{ text, offset }]. *)
Record label := mkLabel {
  text   : tick;
  offset : num
}.

(** A [text] element: its datum, its [text-anchor] style, and the
    content and [startOffset] (a percentage) of its [textPath]. *)
Record textNode := mkTextNode {
  t_datum       : label;
  t_anchor      : string;
  t_text        : tick;
  t_startOffset : num
}.

(** The [def] element: the radius in the [d] of its [path], set when
    the element is appended, and the radius in the [d] attribute an
    update sets on the element itself. *)
Record defNode := mkDefNode {
  def_path_d : Q;
  def_d      : option Q
}.

(** The [g.circularLabels] group. *)
Record labelsNode := mkLabelsNode {
  l_def   : option defNode;
  l_texts : list textNode
}.

(** What the component writes to the console. *)
Inductive logged :=
| LogNum (n : num)
| LogTicks (newtick : list (option Z)).

Fixpoint map_index {A B} (f : A -> nat -> B) (i : nat) (l : list A) : list B :=
  match l with
  | [] => []
  | d :: l' => f d i :: map_index f (S i) l'
  end.

Definition Q_of_nat (n : nat) : Q := inject_Z (Z.of_nat n).

(** The [for] loop filling [newtick]: [(each * i).toFixed(0)] for
    [i = 0 .. split - 1]. *)
Definition newtick (each : num) (split : nat) : list (option Z) :=
  map (fun i => option_map JS.toFixed0 (nmul each (Some (Q_of_nat i))))
      (seq 0 split).

(** The branch on [typeof radialScale.ticks]: the tick data, and what
    the linear branch logs on the way. *)
Definition tickData (s : radial) : list tick * list logged :=
  match s with
  | RadialLinear domain _ ticks =>
      let min := D3.min domain (fun d => d) in
      let max := D3.max domain (fun d => d) in
      let range := nsub max min in
      let split := List.length ticks in
      let each := ndiv range (Some (Q_of_nat split)) in
      (map TNum ticks,
       [LogNum min; LogNum max; LogTicks (newtick each split)])
  | RadialBand domain _ => (map TStr domain, [])
  end.

(** The data function of the [text] join. *)
Definition textData (s : radial) (tickData : list tick) : list label :=
  let textScale :=
    D3.scaleLinear [Some 0; Some (Q_of_nat (List.length tickData))]
                   (range_of s) in
  map_index
    (fun d i =>
       {| text := d;
          offset :=
            nmul (ndiv (D3.s_call textScale (Q_of_nat i)) (Some 360))
                 (Some 100) |})
    0%nat tickData.

(** The [text] join, by index: an exit node is removed, an entering
    datum gets a new element, an update node is rebound and the
    transition brings its [textPath] to the new text and offset. *)
Fixpoint joinTexts (anchor : string) (nodes : list textNode)
         (data : list label) : list textNode :=
  match data with
  | [] => []
  | d :: data' =>
      match nodes with
      | [] => mkTextNode d anchor (text d) (offset d)
                :: joinTexts anchor [] data'
      | n :: nodes' => mkTextNode d (t_anchor n) (text d) (offset d)
                :: joinTexts anchor nodes' data'
      end
  end.

Section Nodes.

(** The data bound to the nodes of the selection, of any type: the
    component never reads it. *)
Variable D : Type.

Record node := mkNode {
  n_datum  : option D;
  n_labels : option labelsNode
}.

(** [defSelect]: a missing [def] is appended with its path, an
    existing one gets [d] set on itself. *)
Definition joinDef (r : Q) (def : option defNode) : defNode :=
  match def with
  | None => mkDefNode r None
  | Some def => mkDefNode (def_path_d def) (Some r)
  end.

(** The first part of the body, up to the [def]: every node of the
    selection gets its [g.circularLabels] and [def]. *)
Definition appendLabels (r : Q) (n : node) : node :=
  let labels :=
    match n_labels n with
    | None => mkLabelsNode None []
    | Some labels => labels
    end in
  mkNode (n_datum n)
         (Some (mkLabelsNode (Some (joinDef r (l_def labels)))
                             (l_texts labels))).

(** The second part: the texts of a node's labels group. *)
Definition drawTexts (anchor : string) (data : list label) (n : node) : node :=
  mkNode (n_datum n)
         (option_map
            (fun labels =>
               mkLabelsNode (l_def labels)
                            (joinTexts anchor (l_texts labels) data))
            (n_labels n)).

(** The body of [selection.each(function(data) { ... })]; it works on
    the whole [selection] each time it runs.  Reading
    [radialScale.ticks] throws while [radialScale] is [undefined]. *)
Definition body (st : state) (sel : list node)
  : outcome (state * list node * list logged) :=
  let defaultRadius := JS.Math_min (width st) (height st) / 2 in
  let radius :=
    match radius st with
    | None => defaultRadius
    | Some radius => radius
    end in
  let st := mkState (width st) (height st) (radialScale st)
                    (Some radius) (textAnchor st) in
  let sel := map (appendLabels radius) sel in
  match radialScale st with
  | None => Threw HostTypeError
  | Some s =>
      let (ticks, log) := tickData s in
      Ok (st, map (drawTexts (textAnchor st) (textData s ticks)) sel, log)
  end.

(** [selection.each]: the body runs once for every node. *)
Fixpoint each (n : nat) (st : state) (sel : list node) (log : list logged)
  : outcome (state * list node * list logged) :=
  match n with
  | O => Ok (st, sel, log)
  | S n' =>
      r <- body st sel ;;
      each n' (fst (fst r)) (snd (fst r)) (log ++ snd r)%list
  end.

(** [my(selection)]. *)
Definition my (st : state) (sel : list node)
  : outcome (state * list node * list logged) :=
  each (List.length sel) st sel [].

End Nodes.

Arguments n_datum {D} n.
Arguments n_labels {D} n.
Arguments mkNode {D} n_datum n_labels.

(** What the properties say of a node: its labels group shows exactly
    the label data, text and offset, in order. *)
Definition shows {D} (data : list label) (n : node D) : Prop :=
  exists labels,
    n_labels n = Some labels /\
    map t_text (l_texts labels) = map text data /\
    map t_startOffset (l_texts labels) = map offset data.

(** *** Getters and setters *)

Definition my_height (st : state) (arg : option Q)
  : outcome (state * returned Q) :=
  match arg with
  | None => Ok (st, Value (height st))
  | Some v => Ok (mkState (width st) v (radialScale st) (radius st)
                          (textAnchor st), Component)
  end.

Definition my_width (st : state) (arg : option Q)
  : outcome (state * returned Q) :=
  match arg with
  | None => Ok (st, Value (width st))
  | Some v => Ok (mkState v (height st) (radialScale st) (radius st)
                          (textAnchor st), Component)
  end.

Definition my_radius (st : state) (arg : option (option Q))
  : outcome (state * returned (option Q)) :=
  match arg with
  | None => Ok (st, Value (radius st))
  | Some v => Ok (mkState (width st) (height st) (radialScale st) v
                          (textAnchor st), Component)
  end.

Definition my_radialScale (st : state) (arg : option (option radial))
  : outcome (state * returned (option radial)) :=
  match arg with
  | None => Ok (st, Value (radialScale st))
  | Some v => Ok (mkState (width st) (height st) v (radius st)
                          (textAnchor st), Component)
  end.

Definition my_textAnchor (st : state) (arg : option string)
  : outcome (state * returned string) :=
  match arg with
  | None => Ok (st, Value (textAnchor st))
  | Some v => Ok (mkState (width st) (height st) (radialScale st)
                          (radius st) v, Component)
  end.

End CircularLabels.

(** ** The line chart *)

Module LineChart.

(** One value of a series: [{ key, value }].  [key] holds seconds in
    the raw input and a [Date] (its milliseconds) once converted; the
    product [b.key * 1000] reads either as a number. *)
Record datum := mkDatum {
  key   : Z;
  value : Q
}.

(** A series: [{ key, values }]. *)
Record series := mkSeries {
  series_key : string;
  values     : list datum
}.

Record margins := mkMargins {
  top    : Q;
  right  : Q;
  bottom : Q;
  left   : Q
}.

(** The fields [init] reads of what [dataParse] returns. *)
Record sliced := mkSliced {
  maxValue   : num;
  groupNames : list string
}.

Inductive orient := Bottom | Left.

(** An axis: its orientation, its scale and its tick format. *)
Record axis := mkAxis {
  a_orient     : orient;
  a_scale      : D3.scale;
  a_tickFormat : option string
}.

(** The closure variables of one chart; [svg] tells whether the
    containers have been created. *)
Record state := mkState {
  svg        : bool;
  classed    : string;
  width      : Q;
  height     : Q;
  margin     : margins;
  colors     : list string;
  dispatch   : D3.dispatch;
  chartW     : num;
  chartH     : num;
  xScale     : option D3.scale;
  yScale     : option D3.scale;
  xAxis      : option axis;
  yAxis      : option axis;
  colorScale : option D3.ordinal;
  yAxisLabel : option string
}.

(** [data.forEach(... data[i].values[j].key = new Date(b.key * 1000) ...)]:
    the keys are overwritten in the array the caller passed.  The product
    is kept as the new key; it is the time of the date stored while it
    lies within the range of dates ([JS.newDate]). *)
Definition convertDates (data : list series) : list series :=
  map (fun d =>
         mkSeries (series_key d)
                  (map (fun b => mkDatum (key b * 1000) (value b)) (values d)))
      data.

Definition key_of (d : datum) : Q := inject_Z (key d).

Section Imports.

(** Modules of the library the chart imports: [dataParse], and the
    colours [palette.categorical(3)] returns. *)
Variable dataParse : list series -> sliced.
Variable categorical3 : list string.

Definition default : state :=
  {| svg := false;
     classed := "lineChart";
     width := 400;
     height := 300;
     margin := mkMargins 20 20 40 40;
     colors := categorical3;
     dispatch := D3.mkDispatch CandleSticks.customEvents;
     chartW := None;
     chartH := None;
     xScale := None;
     yScale := None;
     xAxis := None;
     yAxis := None;
     colorScale := None;
     yAxisLabel := None |}.

(** [init(data)]: returns the new closure state and the data array,
    whose keys it has overwritten.  [data[0].values] throws on an
    empty array. *)
Definition init (st : state) (data : list series)
  : outcome (state * list series) :=
  let chartW := width st - left (margin st) - right (margin st) in
  let chartH := height st - top (margin st) - bottom (margin st) in
  let slicedData := dataParse data in
  let maxValue := maxValue slicedData in
  let groupNames := groupNames slicedData in
  let data := convertDates data in
  match data with
  | [] => Threw HostTypeError
  | first :: _ =>
      let dateDomain := D3.extent (values first) key_of in
      let colorScale :=
        match colorScale st with
        | None => D3.scaleOrdinal (colors st) groupNames
        | Some colorScale => colorScale
        end in
      let xScale := D3.scaleTime dateDomain [Some 0; Some chartW] in
      let yScale :=
        D3.scaleLinear [Some 0; nmul maxValue (Some 1.05)]
                       [Some chartH; Some 0] in
      Ok ({| svg := svg st;
             classed := classed st;
             width := width st;
             height := height st;
             margin := margin st;
             colors := colors st;
             dispatch := dispatch st;
             chartW := Some chartW;
             chartH := Some chartH;
             xScale := Some xScale;
             yScale := Some yScale;
             xAxis := Some (mkAxis Bottom xScale (Some "%d-%b-%y"%string));
             yAxis := Some (mkAxis Left yScale None);
             colorScale := Some colorScale;
             yAxisLabel := yAxisLabel st |},
          data)
  end.

Definition set_svg (st : state) : state :=
  mkState true (classed st) (width st) (height st) (margin st)
          (colors st) (dispatch st) (chartW st) (chartH st) (xScale st)
          (yScale st) (xAxis st) (yAxis st) (colorScale st) (yAxisLabel st).

(** The body of [selection.each(function(data) { ... })] for one
    container and the data array bound to it: [init], then the
    containers are created if they do not exist.  The drawing that
    follows is not part of the model: the shapes are drawn by the line
    and scatter components, which get the scales, and the groups entering
    for them are filled with [colorScale(d.key)], a call that adds a key
    the colour scale has not seen to its domain.  The colour scale of the
    state returned is therefore the one [init] leaves, and nothing is
    stated of it after a render. *)
Definition render (st : state) (data : list series)
  : outcome (state * list series) :=
  r <- init st data ;;
  Ok (set_svg (fst r), snd r).

(** [my(selection)]: every container in order, each with its array. *)
Fixpoint my (st : state) (sel : list (list series))
  : outcome (state * list (list series)) :=
  match sel with
  | [] => Ok (st, [])
  | data :: sel' =>
      r <- render st data ;;
      r' <- my (fst r) sel' ;;
      Ok (fst r', snd r :: snd r')
  end.

End Imports.

(** *** Getters and setters *)

Definition set_width (v : Q) (st : state) : state :=
  mkState (svg st) (classed st) v (height st) (margin st)
          (colors st) (dispatch st) (chartW st) (chartH st) (xScale st)
          (yScale st) (xAxis st) (yAxis st) (colorScale st) (yAxisLabel st).

Definition set_height (v : Q) (st : state) : state :=
  mkState (svg st) (classed st) (width st) v (margin st)
          (colors st) (dispatch st) (chartW st) (chartH st) (xScale st)
          (yScale st) (xAxis st) (yAxis st) (colorScale st) (yAxisLabel st).

Definition set_margin (v : margins) (st : state) : state :=
  mkState (svg st) (classed st) (width st) (height st) v
          (colors st) (dispatch st) (chartW st) (chartH st) (xScale st)
          (yScale st) (xAxis st) (yAxis st) (colorScale st) (yAxisLabel st).

Definition set_dispatch (v : D3.dispatch) (st : state) : state :=
  mkState (svg st) (classed st) (width st) (height st) (margin st)
          (colors st) v (chartW st) (chartH st) (xScale st)
          (yScale st) (xAxis st) (yAxis st) (colorScale st) (yAxisLabel st).

Definition my_width (st : state) (arg : option Q)
  : outcome (state * returned Q) :=
  match arg with
  | None => Ok (st, Value (width st))
  | Some v => Ok (set_width v st, Component)
  end.

Definition my_height (st : state) (arg : option Q)
  : outcome (state * returned Q) :=
  match arg with
  | None => Ok (st, Value (height st))
  | Some v => Ok (set_height v st, Component)
  end.

Definition my_margin (st : state) (arg : option margins)
  : outcome (state * returned margins) :=
  match arg with
  | None => Ok (st, Value (margin st))
  | Some v => Ok (set_margin v st, Component)
  end.

(** [my.dispatch]: as in candleSticks, the getter evaluates [dispatch()]. *)
Definition my_dispatch (st : state) (arg : option D3.dispatch)
  : outcome (state * returned D3.dispatch) :=
  match arg with
  | None => Threw HostTypeError
  | Some v => Ok (set_dispatch v st, Component)
  end.

End LineChart.

(** ** Sample inputs *)

Module Samples.

Import CandleSticks.

Definition upCandle : candle := mkCandle 1000 10 12 9 11.
Definition downCandle : candle := mkCandle 2000 11 99 1 10.
Definition flatCandle : candle := mkCandle 3000 10 12 9 10.

Definition stock : series :=
  mkSeries "stock" [upCandle; downCandle; flatCandle].

(** A series group with its datum bound and nothing drawn yet. *)
Definition stockGroup : seriesNode := mkSeriesNode (Some stock) [] None [].



(** A series whose one candle is dated at the last time a [Date] holds. *)
Definition lastDay : series :=
  mkSeries "last" [mkCandle 8640000000000000 10 12 9 11].

Definition lastDayGroup : seriesNode := mkSeriesNode (Some lastDay) [] None [].

(** A linear radial scale over [0, 100] onto the full circle, with the
    ticks [ticks()] gives for it, and a band scale. *)
Definition percentScale : CircularLabels.radial :=
  CircularLabels.RadialLinear [0; 100] [Some 0; Some 360]
    [0; 10; 20; 30; 40; 50; 60; 70; 80; 90; 100].

Definition seasonScale : CircularLabels.radial :=
  CircularLabels.RadialBand ["spring"; "summer"; "autumn"; "winter"]%string
    [Some 0; Some 360].

(** A container with a datum and nothing drawn yet. *)
Definition container : CircularLabels.node nat :=
  CircularLabels.mkNode (Some 7%nat) None.

(** Line chart data: one series, keys in seconds. *)
Definition visits : list LineChart.series :=
  [LineChart.mkSeries "visits"
     [LineChart.mkDatum 1 5; LineChart.mkDatum 3 2; LineChart.mkDatum 2 8]].

(** A stand-in for [dataParse] on the samples: the greatest value of all
    series, and the series names. *)
Definition parseSample (data : list LineChart.series) : LineChart.sliced :=
  LineChart.mkSliced
    (D3.max (flat_map LineChart.values data) LineChart.value)
    (map LineChart.series_key data).

(** A second series, whose prices leave the range of the first. *)
Definition spike : CandleSticks.series :=
  CandleSticks.mkSeries "spike"
    [CandleSticks.mkCandle 90000000 200 500 150 450].

Definition spikeGroup : CandleSticks.seriesNode :=
  CandleSticks.mkSeriesNode (Some spike) [] None [].

(** Scales as a chart hands them to the component. *)
Definition chartX : D3.scale :=
  D3.scaleTime [Some 0; Some 4000] [Some 0; Some 300].

Definition chartY : D3.scale :=
  D3.scaleLinear [Some 0; Some 200] [Some 200; Some 0].

(** The default component after [xScale(chartX)] and [yScale(chartY)]. *)
Definition chartState : CandleSticks.state :=
  CandleSticks.set_yScale (Some chartY)
    (CandleSticks.set_xScale (Some chartX) CandleSticks.default).

End Samples.

(** ** Vocabulary of the further properties *)

Module Layout.

Import CandleSticks.

(** What [highLowLines] and then [openCloseBars] make of one candle
    group: each shape is added where it is missing. *)
Definition shapes (xScale yScale : D3.scale) (candleWidth : Q)
           (n : candleNode) : candleNode :=
  openCloseBars xScale yScale candleWidth (highLowLines xScale yScale n).

(** A series group in the form a render leaves: it has a datum, the id
    of its series and the class; its first candle groups carry the values
    of the series, in order, each with both shapes. *)
Definition settledGroup (class : string) (g : seriesNode) : Prop :=
  exists d,
    g_datum g = Some d /\
    g_id g = Some (key d) /\
    existsb (String.eqb class) (g_classes g) = true /\
    (List.length (values d) <= List.length (g_candles g))%nat /\
    map c_datum (firstn (List.length (values d)) (g_candles g)) = values d /\
    Forall (fun c => c_highLow c <> None /\ c_bar c <> None)
           (firstn (List.length (values d)) (g_candles g)).

(** The [text] elements a node has; none without a labels group. *)
Definition textsOf {D} (n : CircularLabels.node D) : list CircularLabels.textNode :=
  match CircularLabels.n_labels n with
  | Some labels => CircularLabels.l_texts labels
  | None => []
  end.

(** The radius in the label path a node has, or [r] where it has none. *)
Definition pathRadius {D} (r : Q) (n : CircularLabels.node D) : Q :=
  match CircularLabels.n_labels n with
  | Some labels =>
      match CircularLabels.l_def labels with
      | Some def => CircularLabels.def_path_d def
      | None => r
      end
  | None => r
  end.

(** The radius a render works with: the one set, or half the smaller
    of width and height. *)
Definition renderRadius (st : CircularLabels.state) : Q :=
  match CircularLabels.radius st with
  | Some radius => radius
  | None => JS.Math_min (CircularLabels.width st) (CircularLabels.height st) / 2
  end.

End Layout.

(** * Properties *)

(** ** Numbers and d3 *)

Lemma gt_true_iff (a b : Q) : JS.gt a b = true <-> b < a.
Proof.
  unfold JS.gt. rewrite negb_true_iff, <- not_true_iff_false, Qle_bool_iff.
  split; [apply Qnot_le_lt | apply Qlt_not_le].
Qed.

Lemma gt_false_iff (a b : Q) : JS.gt a b = false <-> a <= b.
Proof.
  unfold JS.gt. rewrite negb_false_iff. apply Qle_bool_iff.
Qed.

Lemma lt_true_iff (a b : Q) : JS.lt a b = true <-> a < b.
Proof. apply (gt_true_iff b a). Qed.

Lemma lt_false_iff (a b : Q) : JS.lt a b = false <-> b <= a.
Proof. apply (gt_false_iff b a). Qed.

Module D3Facts.

Import D3.

(** [min_rest] returns one of the values it has seen, below them all. *)
Lemma min_rest_spec (rest : list Q) : forall m,
  In (min_rest m rest) (m :: rest) /\
  forall v, In v (m :: rest) -> min_rest m rest <= v.
Proof.
  induction rest as [|x rest IH]; intros m; simpl.
  - split; [now left|]. intros v [<-|[]]. apply Qle_refl.
  - destruct (IH (if JS.gt m x then x else m)) as [Hin Hle]. split.
    + destruct (JS.gt m x); simpl in Hin; intuition.
    + intros v Hv.
      assert (Hm : (if JS.gt m x then x else m) <= m /\
                   (if JS.gt m x then x else m) <= x).
      { destruct (JS.gt m x) eqn:E.
        - apply gt_true_iff in E. split; [now apply Qlt_le_weak | apply Qle_refl].
        - apply gt_false_iff in E. split; [apply Qle_refl | exact E]. }
      destruct Hm as [Hm Hx].
      destruct Hv as [<-|[<-|Hv]].
      * eapply Qle_trans; [apply Hle; now left | exact Hm].
      * eapply Qle_trans; [apply Hle; now left | exact Hx].
      * apply Hle. now right.
Qed.

Lemma max_rest_spec (rest : list Q) : forall m,
  In (max_rest m rest) (m :: rest) /\
  forall v, In v (m :: rest) -> v <= max_rest m rest.
Proof.
  induction rest as [|x rest IH]; intros m; simpl.
  - split; [now left|]. intros v [<-|[]]. apply Qle_refl.
  - destruct (IH (if JS.gt x m then x else m)) as [Hin Hle]. split.
    + destruct (JS.gt x m); simpl in Hin; intuition.
    + intros v Hv.
      assert (Hm : m <= (if JS.gt x m then x else m) /\
                   x <= (if JS.gt x m then x else m)).
      { destruct (JS.gt x m) eqn:E.
        - apply gt_true_iff in E. split; [now apply Qlt_le_weak | apply Qle_refl].
        - apply gt_false_iff in E. split; [apply Qle_refl | exact E]. }
      destruct Hm as [Hm Hx].
      destruct Hv as [<-|[<-|Hv]].
      * eapply Qle_trans; [exact Hm | apply Hle; now left].
      * eapply Qle_trans; [exact Hx | apply Hle; now left].
      * apply Hle. now right.
Qed.

(** [d3.min] is [undefined] on an empty array and the least value
    otherwise. *)
Lemma min_spec {A} (values : list A) (valueof : A -> Q) :
  match D3.min values valueof with
  | None => values = []
  | Some m => least values valueof m
  end.
Proof.
  unfold D3.min. destruct values as [|d values]; simpl; [reflexivity|].
  destruct (min_rest_spec (map valueof values) (valueof d)) as [Hin Hle].
  split.
  - change (valueof d :: map valueof values) with (map valueof (d :: values)) in Hin.
    apply in_map_iff in Hin. destruct Hin as [d' [E Hd']]. now exists d'.
  - intros d' Hd'. apply Hle.
    change (valueof d :: map valueof values) with (map valueof (d :: values)).
    now apply in_map.
Qed.

Lemma max_spec {A} (values : list A) (valueof : A -> Q) :
  match D3.max values valueof with
  | None => values = []
  | Some m => greatest values valueof m
  end.
Proof.
  unfold D3.max. destruct values as [|d values]; simpl; [reflexivity|].
  destruct (max_rest_spec (map valueof values) (valueof d)) as [Hin Hle].
  split.
  - change (valueof d :: map valueof values) with (map valueof (d :: values)) in Hin.
    apply in_map_iff in Hin. destruct Hin as [d' [E Hd']]. now exists d'.
  - intros d' Hd'. apply Hle.
    change (valueof d :: map valueof values) with (map valueof (d :: values)).
    now apply in_map.
Qed.

(** *** [tickStep] and [nice] *)

Lemma log10_down_spec fuel : forall p q,
  q < Qpower 10 (p + 1) -> Qpower 10 (p - Z.of_nat fuel) <= q ->
  Qpower 10 (log10_down fuel p q) <= q /\ q < Qpower 10 (log10_down fuel p q + 1).
Proof.
  induction fuel as [|fuel IH]; intros p q Hup Hlo.
  - simpl. replace (p - Z.of_nat 0)%Z with p in Hlo by lia. now split.
  - cbn [log10_down]. destruct (Qle_bool (Qpower 10 p) q) eqn:E.
    + apply Qle_bool_iff in E. now split.
    + assert (Hlt : q < Qpower 10 p).
      { apply Qnot_le_lt. intros H. apply Qle_bool_iff in H. congruence. }
      apply IH.
      * now replace (p - 1 + 1)%Z with p by lia.
      * now replace (p - 1 - Z.of_nat fuel)%Z with (p - Z.of_nat (S fuel))%Z by lia.
Qed.

Lemma two_pow_le_ten_pow k : (0 <= k)%Z -> inject_Z (2 ^ k) <= Qpower 10 k.
Proof.
  intros Hk. change 10 with (inject_Z 10). rewrite <- Zpower_Qpower by exact Hk.
  rewrite <- Zle_Qle. apply Z.pow_le_mono_l. lia.
Qed.

(** [floor_log10 q] is the integer [p] with [10 ^ p <= q < 10 ^ (p + 1)]:
    the floor of the decimal logarithm. *)
Lemma floor_log10_spec q :
  0 < q ->
  Qpower 10 (floor_log10 q) <= q /\ q < Qpower 10 (floor_log10 q + 1).
Proof.
  intros Hq. unfold floor_log10. destruct q as [n d].
  assert (Hn : (0 < n)%Z) by (unfold Qlt in Hq; simpl in Hq; lia).
  cbn [Qnum Qden].
  pose proof (Z.log2_nonneg n) as Hln.
  pose proof (Z.log2_nonneg (Zpos d)) as Hld.
  apply log10_down_spec.
  - apply Qle_lt_trans with (inject_Z n).
    { unfold Qle. simpl. nia. }
    apply Qlt_le_trans with (inject_Z (2 ^ (Z.log2 n + 1))).
    { rewrite <- Zlt_Qlt. destruct (Z.log2_spec n Hn) as [_ H].
      now replace (Z.succ (Z.log2 n)) with (Z.log2 n + 1)%Z in H by lia. }
    apply Qle_trans with (Qpower 10 (Z.log2 n + 1)).
    { apply two_pow_le_ten_pow. lia. }
    apply Qpower_le_compat_l; [lia | discriminate].
  - rewrite Z2Nat.id by lia.
    replace (Z.log2 n + 1 - (Z.log2 n + 1 - - (Z.log2 (Z.pos d) + 1)))%Z
      with (- (Z.log2 (Z.pos d) + 1))%Z by lia.
    rewrite Qpower_opp.
    assert (Hd : inject_Z (Zpos d) < Qpower 10 (Z.log2 (Z.pos d) + 1)).
    { apply Qlt_le_trans with (inject_Z (2 ^ (Z.log2 (Zpos d) + 1))).
      - rewrite <- Zlt_Qlt. destruct (Z.log2_spec (Zpos d)) as [_ H]; [lia|].
        now replace (Z.succ (Z.log2 (Zpos d))) with (Z.log2 (Zpos d) + 1)%Z in H by lia.
      - apply two_pow_le_ten_pow. lia. }
    set (t := Qpower 10 (Z.log2 (Z.pos d) + 1)) in *.
    assert (Ht : 0 < t) by (apply Qpower_0_lt; reflexivity).
    apply Qle_shift_inv_r; [exact Ht|].
    apply Qle_trans with ((n # d) * inject_Z (Zpos d)).
    + unfold Qle, Qmult, inject_Z. simpl. nia.
    + apply Qmult_le_l; [exact Hq | now apply Qlt_le_weak].
Qed.

Lemma tickStep_pos start stop : start < stop -> 0 < tickStep start stop 10.
Proof.
  intros H. unfold tickStep.
  assert (Hc : JS.gt 10 0 = true) by reflexivity. rewrite Hc.
  assert (H0 : 0 < Qabs (stop - start) / 10).
  { apply Qlt_shift_div_l; [reflexivity|].
    rewrite Qabs_pos by lra. lra. }
  set (step0 := Qabs (stop - start) / 10) in *.
  assert (Hle : Qle_bool step0 0 = false).
  { apply not_true_iff_false. rewrite Qle_bool_iff. lra. }
  rewrite Hle.
  assert (Hlt : JS.lt stop start = false) by (apply lt_false_iff; lra).
  rewrite Hlt.
  assert (Hp : 0 < Qpower 10 (floor_log10 step0))
    by (apply Qpower_0_lt; reflexivity).
  set (step1 := Qpower 10 (floor_log10 step0)) in *.
  destruct (Qle_bool 50 _); [lra|].
  destruct (Qle_bool 10 _); [lra|].
  destruct (Qle_bool 2 _); lra.
Qed.

Lemma floor_multiple_le x step : 0 < step -> floor (x / step) * step <= x.
Proof.
  intros H. unfold floor.
  setoid_replace x with (x / step * step) at 2
    by (field; intros E; lra).
  apply Qmult_le_compat_r; [apply Qfloor_le | lra].
Qed.

Lemma ceil_multiple_ge x step : 0 < step -> x <= ceil (x / step) * step.
Proof.
  intros H. unfold ceil.
  setoid_replace x with (x / step * step) at 1
    by (field; intros E; lra).
  apply Qmult_le_compat_r; [apply Qle_ceiling | lra].
Qed.

(** [nice_domain] moves the two ends of an interval outwards, if at all. *)
Lemma nice_domain_contains lo hi :
  lo <= hi ->
  exists lo' hi',
    nice_domain [Some lo; Some hi] = [Some lo'; Some hi'] /\
    lo' <= lo /\ hi <= hi'.
Proof.
  intros Hle. unfold nice_domain. cbn [hd last].
  destruct (Qeq_bool (tickStep lo hi 10) 0) eqn:E.
  - exists lo, hi. repeat split; lra.
  - assert (Hlt : lo < hi).
    { destruct (Qlt_le_dec lo hi) as [H|H]; [exact H|]. exfalso.
      apply not_true_iff_false in E. apply E. apply Qeq_bool_iff.
      unfold tickStep.
      assert (Hz : Qabs (hi - lo) / (if JS.gt 10 0 then 10 else 0) == 0).
      { setoid_replace (hi - lo) with 0 by lra. reflexivity. }
      assert (Hb : Qle_bool (Qabs (hi - lo) / (if JS.gt 10 0 then 10 else 0)) 0 = true)
        by (apply Qle_bool_iff; rewrite Hz; apply Qle_refl).
      rewrite Hb. reflexivity. }
    pose proof (tickStep_pos lo hi Hlt) as Hs.
    set (step := tickStep lo hi 10) in *.
    pose proof (floor_multiple_le lo step Hs) as Hf.
    pose proof (ceil_multiple_ge hi step Hs) as Hc.
    assert (Hs2 : 0 < tickStep (floor (lo / step) * step) (ceil (hi / step) * step) 10)
      by (apply tickStep_pos; lra).
    set (step2 := tickStep _ _ 10) in *.
    do 2 eexists. split; [reflexivity|].
    split; [now apply floor_multiple_le | now apply ceil_multiple_ge].
Qed.

(** [tickStep] and [nice] on a few inputs, as d3 computes them. *)
Example tickStep_1_99 : tickStep 1 99 10 = 10.
Proof. vm_compute. reflexivity. Qed.

Example tickStep_0_7 : tickStep 0 7 10 == 0.5.
Proof. vm_compute. reflexivity. Qed.

Example tickStep_descending : tickStep 99 1 10 = - (10).
Proof. vm_compute. reflexivity. Qed.

Example nice_1_99 : nice_domain [Some 1; Some 99] = [Some 0; Some 100].
Proof. vm_compute. reflexivity. Qed.

Example nice_point : nice_domain [Some 5; Some 5] = [Some 5; Some 5].
Proof. vm_compute. reflexivity. Qed.

Example nice_undefined : nice_domain [None; None] = [None; None].
Proof. reflexivity. Qed.

(** *** [d3.extent] *)



End D3Facts.

(** ** Dates *)

Module DateFacts.

Lemma truncate_Z (q : Q) (z : Z) : q == inject_Z z -> JS.truncate q = z.
Proof.
  intros E. unfold JS.truncate. destruct (Qle_bool 0 q).
  - rewrite (Qfloor_comp _ _ E). apply Qfloor_Z.
  - rewrite (Qceiling_comp _ _ E). apply Qceiling_Z.
Qed.

(** [new Date(t)] holds the time [t] when [t] is a whole number of
    milliseconds within the range of dates. *)
Lemma newDate_Z (q : Q) (z : Z) :
  q == inject_Z z -> (Z.abs z <= JS.maxTime)%Z ->
  JS.newDate (Some q) = Some (inject_Z z).
Proof.
  intros E Hz. unfold JS.newDate.
  assert (H : Qle_bool (Qabs q) (inject_Z JS.maxTime) = true).
  { apply Qle_bool_iff. rewrite E.
    change (Qabs (inject_Z z)) with (inject_Z (Z.abs z)).
    now rewrite <- Zle_Qle. }
  now rewrite H, (truncate_Z q z E).
Qed.

Lemma newDate_minus (a k : Z) :
  (Z.abs (a - k) <= JS.maxTime)%Z ->
  JS.newDate (JS.nsub (Some (inject_Z a)) (Some (inject_Z k)))
    = Some (inject_Z (a - k)).
Proof.
  intros H. cbn [JS.nsub JS.lift2]. apply newDate_Z; [|exact H].
  unfold Qeq, inject_Z, Qminus, Qplus, Qopp; simpl. lia.
Qed.

Lemma newDate_plus (a k : Z) :
  (Z.abs (a + k) <= JS.maxTime)%Z ->
  JS.newDate (JS.nadd (Some (inject_Z a)) (Some (inject_Z k)))
    = Some (inject_Z (a + k)).
Proof.
  intros H. cbn [JS.nadd JS.lift2]. apply newDate_Z; [|exact H].
  unfold Qeq, inject_Z, Qplus; simpl. lia.
Qed.

Lemma newDate_times (a k : Z) :
  (Z.abs (a * k) <= JS.maxTime)%Z ->
  JS.newDate (JS.nmul (Some (inject_Z a)) (Some (inject_Z k)))
    = Some (inject_Z (a * k)).
Proof.
  intros H. cbn [JS.nmul JS.lift2]. apply newDate_Z; [|exact H].
  unfold Qeq, inject_Z, Qmult; simpl. lia.
Qed.

(** Beyond the range there is no time. *)
Lemma newDate_beyond (q : Q) :
  inject_Z JS.maxTime < Qabs q -> JS.newDate (Some q) = None.
Proof.
  intros H. unfold JS.newDate.
  destruct (Qle_bool (Qabs q) (inject_Z JS.maxTime)) eqn:E; [|reflexivity].
  apply Qle_bool_iff in E. exfalso. exact (Qlt_not_le _ _ H E).
Qed.

End DateFacts.

(** ** Ordinal scales keep what they have assigned *)

Module OrdinalFacts.

Import D3.

Lemma index_get_app key domain more i :
  index_get key domain = Some i ->
  index_get key (domain ++ more) = Some i.
Proof.
  revert i. induction domain as [|k domain IH]; intros i; simpl; [discriminate|].
  destruct (String.eqb key k); [trivial|].
  destruct (index_get key domain) as [j|] eqn:E; [|discriminate].
  rewrite (IH j eq_refl). trivial.
Qed.

Lemma index_get_new key domain :
  index_get key domain = None ->
  index_get key (domain ++ [key]) = Some (S (List.length domain)).
Proof.
  induction domain as [|k domain IH]; simpl.
  - now rewrite String.eqb_refl.
  - destruct (String.eqb key k); [discriminate|].
    destruct (index_get key domain); [discriminate|].
    intros _. now rewrite IH.
Qed.

Lemma app_one_neq {A} (l : list A) (x : A) : (l ++ [x])%list <> l.
Proof.
  intros E. apply (f_equal (@List.length A)) in E.
  rewrite length_app in E. simpl in E. lia.
Qed.

(** After [scale(key)] the key is settled at the value returned. *)
Lemma settled_after_call s key :
  settled (snd (ordinal_call s key)) key (fst (ordinal_call s key)).
Proof.
  unfold settled, ordinal_call.
  destruct (index_get key (o_domain s)) as [i|] eqn:E; simpl.
  - now rewrite E.
  - rewrite (index_get_new _ _ E), length_app. simpl.
    now rewrite Nat.add_1_r.
Qed.

(** A call with another key does not unsettle a key. *)
Lemma settled_preserved s key v key' :
  settled s key v -> settled (snd (ordinal_call s key')) key v.
Proof.
  unfold settled, ordinal_call. destruct s as [domain range]; simpl.
  destruct (index_get key domain) as [i|] eqn:E.
  - intros Hv. injection Hv as Hv.
    destruct (index_get key' domain); simpl.
    + now rewrite E, Hv.
    + now rewrite (index_get_app _ _ [key'] _ E), Hv.
  - intros Hv. exfalso. inversion Hv as [[Hr Hd]].
    exact (app_one_neq _ _ Hd).
Qed.


End OrdinalFacts.

(** ** The candleSticks render, group by group *)

Module CandleFacts.

Import D3 CandleSticks OrdinalFacts.

Lemma attr_color_keeps ds : forall cs key v,
  settled cs key v -> settled (snd (attr_color cs ds)) key v.
Proof.
  induction ds as [|d ds IH]; intros cs key v Hs; simpl; [exact Hs|].
  destruct (ordinal_call cs (key_of_bool (isUpDay d))) as [c cs1] eqn:E1.
  destruct (attr_color cs1 ds) as [vals cs2] eqn:E2. simpl.
  pose proof (IH cs1 key v) as H. rewrite E2 in H. apply H.
  pose proof (settled_preserved cs key v (key_of_bool (isUpDay d)) Hs) as H1.
  now rewrite E1 in H1.
Qed.

(** Every colour a pass returns is settled in the scale it leaves. *)
Lemma attr_color_settled ds : forall cs,
  Forall2 (fun d v => settled (snd (attr_color cs ds)) (key_of_bool (isUpDay d)) v)
          ds (fst (attr_color cs ds)).
Proof.
  induction ds as [|d ds IH]; intros cs; simpl; [constructor|].
  destruct (ordinal_call cs (key_of_bool (isUpDay d))) as [c cs1] eqn:E1.
  destruct (attr_color cs1 ds) as [vals cs2] eqn:E2. simpl.
  constructor.
  - pose proof (attr_color_keeps ds cs1 (key_of_bool (isUpDay d)) c) as H.
    rewrite E2 in H. apply H.
    pose proof (settled_after_call cs (key_of_bool (isUpDay d))) as H1.
    now rewrite E1 in H1.
  - specialize (IH cs1). now rewrite E2 in IH.
Qed.

(** A pass over data whose colours are settled returns them and leaves
    the scale alone. *)
Lemma attr_color_again ds : forall cs vals,
  Forall2 (fun d v => settled cs (key_of_bool (isUpDay d)) v) ds vals ->
  attr_color cs ds = (vals, cs).
Proof.
  induction ds as [|d ds IH]; intros cs vals H; inversion H; subst; simpl.
  - reflexivity.
  - match goal with Hs : settled _ _ _ |- _ => rewrite Hs end.
    now rewrite (IH cs _ H4).
Qed.

(** With both classifications settled, a pass leaves the scale alone. *)
Lemma attr_color_bools ds cs vt vf :
  settled cs (key_of_bool true) vt -> settled cs (key_of_bool false) vf ->
  snd (attr_color cs ds) = cs.
Proof.
  intros Ht Hf.
  rewrite (attr_color_again ds cs
             (map (fun d => if isUpDay d then vt else vf) ds)); [reflexivity|].
  induction ds as [|d ds IH]; simpl; constructor; [|exact IH].
  now destruct (isUpDay d).
Qed.

Lemma settled_weaken (cs cs' : ordinal) ds vals :
  (forall key v, settled cs key v -> settled cs' key v) ->
  Forall2 (fun (d : candle) v => settled cs (key_of_bool (isUpDay d)) v) ds vals ->
  Forall2 (fun (d : candle) v => settled cs' (key_of_bool (isUpDay d)) v) ds vals.
Proof.
  intros Hk H. induction H; constructor; auto.
Qed.

Lemma combine_twice {A B C} (f : A -> B -> B -> C) (l : list A) :
  forall (m : list B),
  map (fun dc => f (fst dc) (fst (snd dc)) (snd (snd dc)))
      (combine l (combine m m)) =
  map (fun dc => f (fst dc) (snd dc) (snd dc)) (combine l m).
Proof.
  induction l as [|a l IH]; intros [|b m]; simpl; try reflexivity.
  now rewrite IH.
Qed.

Lemma join_update_length nodes data :
  List.length (join_update nodes data) =
  Nat.min (List.length nodes) (List.length data).
Proof. unfold join_update. now rewrite length_map, length_combine. Qed.

(** What [renderGroup] does at a group with a datum, the scales being
    set: the second colour pass repeats the first. *)
Lemma renderGroup_spec st g d xs ys cs :
  g_datum g = Some d ->
  xScale st = Some xs -> yScale st = Some ys -> colorScale st = Some cs ->
  let entering := join_enter (g_candles g) (values d) in
  let cs' := snd (attr_color cs entering) in
  exists g',
    renderGroup st g = Ok (set_colorScale (Some cs') st, g') /\
    drawn xs ys (candleWidth st) cs' g g'.
Proof.
  intros Hd Hx Hy Hc entering cs'.
  pose proof (attr_color_settled entering cs) as Hset.
  fold cs' in Hset.
  unfold renderGroup. rewrite Hd, Hx, Hy, Hc. fold entering.
  destruct (attr_color cs entering) as [fills cs1] eqn:E1.
  simpl in cs', Hset. subst cs'.
  rewrite (attr_color_again _ _ _ Hset).
  eexists. split; [reflexivity|].
  exists d, fills. split; [exact Hd|]. split; [exact Hset|].
  unfold created. simpl.
  rewrite !map_app, !map_map, <- app_assoc.
  rewrite skipn_app, length_map, join_update_length.
  unfold join_exit. subst entering.
  destruct (Nat.le_gt_cases (List.length (values d)) (List.length (g_candles g)))
    as [Hle|Hgt].
  - assert (Hen : join_enter (g_candles g) (values d) = [])
      by (unfold join_enter; now apply skipn_all2).
    rewrite Hen. simpl.
    rewrite skipn_all2 by (rewrite length_map, join_update_length; lia).
    rewrite Nat.min_r by exact Hle.
    rewrite skipn_all2 by (rewrite length_skipn; lia).
    reflexivity.
  - rewrite Nat.min_l by lia.
    rewrite skipn_all2 by (rewrite length_map, join_update_length; lia).
    rewrite Nat.sub_diag. simpl.
    rewrite (skipn_all2 (n := List.length (values d))) by lia.
    rewrite app_nil_r.
    apply (combine_twice
             (fun d c c' => mkCandleNode d c c' (Some (highLowPoints xs ys d))
                              (Some (openCloseRect xs ys (candleWidth st) d)))).
Qed.

Lemma drawn_weaken xs ys cw (cs cs' : ordinal) g g' :
  (forall key v, settled cs key v -> settled cs' key v) ->
  drawn xs ys cw cs g g' -> drawn xs ys cw cs' g g'.
Proof.
  intros Hk (d & fills & Hd & Hset & Hc).
  exists d, fills. repeat split; trivial.
  now apply (settled_weaken cs cs').
Qed.

Lemma set_colorScale_same st cs :
  colorScale st = Some cs -> set_colorScale (Some cs) st = st.
Proof. destruct st; simpl; now intros ->. Qed.

(** [each] renders every group that has a datum; the colour scale only
    ever gains keys. *)
Lemma each_spec sel : forall st xs ys cs,
  xScale st = Some xs -> yScale st = Some ys -> colorScale st = Some cs ->
  Forall has_datum sel ->
  exists cs' sel',
    each st sel = Ok (set_colorScale (Some cs') st, sel') /\
    (forall key v, settled cs key v -> settled cs' key v) /\
    (forall vt vf, settled cs (key_of_bool true) vt ->
                   settled cs (key_of_bool false) vf -> cs' = cs) /\
    Forall2 (drawn xs ys (candleWidth st) cs') sel sel'.
Proof.
  induction sel as [|g sel IH]; intros st xs ys cs Hx Hy Hc Hall.
  - exists cs, []. simpl. rewrite (set_colorScale_same _ _ Hc).
    repeat split; auto.
  - inversion Hall as [|? ? Hg Hrest]; subst.
    destruct (g_datum g) as [d|] eqn:Hd; [|now elim Hg].
    destruct (renderGroup_spec st g d xs ys cs Hd Hx Hy Hc) as (g1 & Hr & Hdr).
    set (cs1 := snd (attr_color cs (join_enter (g_candles g) (values d)))) in *.
    destruct (IH (set_colorScale (Some cs1) st) xs ys cs1 Hx Hy eq_refl Hrest)
      as (cs' & sel' & He & Hk & Hb & Hf).
    exists cs', (g1 :: sel'). simpl. rewrite Hr. simpl. rewrite He. simpl.
    split; [reflexivity|]. split; [|split].
    + intros key v Hs. apply Hk. now apply attr_color_keeps.
    + intros vt vf Ht Hfa.
      assert (E : cs1 = cs) by (apply (attr_color_bools _ _ vt vf); trivial).
      rewrite (Hb vt vf); rewrite E; trivial.
    + constructor; [|exact Hf]. now apply (drawn_weaken xs ys _ cs1 cs').
Qed.

(** [my] on a selection whose groups all have a datum: [init] on the
    first datum, then the groups. *)
Lemma myWith_spec niceDomain st sel :
  sel <> [] -> Forall has_datum sel ->
  exists d0 st1 xs ys cs cs' sel',
    first_datum sel = Some d0 /\
    initWith niceDomain st (Some d0) = Ok st1 /\
    xScale st1 = Some xs /\ yScale st1 = Some ys /\ colorScale st1 = Some cs /\
    myWith niceDomain st sel = Ok (set_colorScale (Some cs') st1, sel') /\
    (forall key v, settled cs key v -> settled cs' key v) /\
    (forall vt vf, settled cs (key_of_bool true) vt ->
                   settled cs (key_of_bool false) vf -> cs' = cs) /\
    Forall2 (drawn xs ys (candleWidth st) cs') sel sel'.
Proof.
  intros Hne Hall. destruct sel as [|g sel]; [now elim Hne|].
  assert (Hg : has_datum g) by now inversion Hall.
  destruct (g_datum g) as [d0|] eqn:Hd; [|now elim Hg].
  unfold myWith. cbn [first_datum]. rewrite Hd. unfold initWith. cbn [JS.bind].
  match goal with |- context [each ?s _] => set (st1 := s) end.
  destruct (each_spec (g :: sel) st1 _ _ _ eq_refl eq_refl eq_refl Hall)
    as (cs' & sel' & He & Hk & Hb & Hf).
  do 7 eexists. split; [reflexivity|]. split; [reflexivity|].
  split; [reflexivity|]. split; [reflexivity|]. split; [reflexivity|].
  split; [exact He|]. split; [exact Hk|]. split; [exact Hb | exact Hf].
Qed.

Lemma my_spec st sel :
  sel <> [] -> Forall has_datum sel ->
  exists d0 st1 xs ys cs cs' sel',
    first_datum sel = Some d0 /\
    init st (Some d0) = Ok st1 /\
    xScale st1 = Some xs /\ yScale st1 = Some ys /\ colorScale st1 = Some cs /\
    my st sel = Ok (set_colorScale (Some cs') st1, sel') /\
    (forall key v, settled cs key v -> settled cs' key v) /\
    (forall vt vf, settled cs (key_of_bool true) vt ->
                   settled cs (key_of_bool false) vf -> cs' = cs) /\
    Forall2 (drawn xs ys (candleWidth st) cs') sel sel'.
Proof. exact (myWith_spec nice_domain st sel). Qed.

(** The candles a render creates, one by one. *)
Lemma drawn_candles xs ys cw cs' g g' :
  drawn xs ys cw cs' g g' ->
  exists d,
    g_datum g = Some d /\
    map c_datum (created g g') = join_enter (g_candles g) (values d) /\
    Forall (fun c =>
              settled cs' (key_of_bool (isUpDay (c_datum c))) (c_fill c) /\
              c_stroke c = c_fill c /\
              c_highLow c = Some (highLowPoints xs ys (c_datum c)) /\
              c_bar c = Some (openCloseRect xs ys cw (c_datum c)))
           (created g g').
Proof.
  intros (d & fills & Hd & Hset & Hc). exists d. split; [exact Hd|].
  rewrite Hc. clear Hc. induction Hset as [|x v l l' Hv Hset IH]; simpl.
  - split; [reflexivity | constructor].
  - destruct IH as [IH1 IH2]. split; [now rewrite IH1|].
    constructor; [|exact IH2]. simpl. auto.
Qed.

(** A group render changes no closure variable but the colour scale. *)
Lemma renderGroup_frame st g st' g' :
  renderGroup st g = Ok (st', g') ->
  exists cs', st' = set_colorScale (Some cs') st.
Proof.
  unfold renderGroup. destruct (g_datum g); [|discriminate].
  destruct (xScale st), (yScale st), (colorScale st); try discriminate.
  destruct (attr_color _ _) as [fills cs1].
  destruct (attr_color cs1 _) as [strokes cs2].
  intros H. injection H as <- _. now exists cs2.
Qed.

Lemma each_frame sel : forall st st' sel',
  each st sel = Ok (st', sel') ->
  st' = st \/ exists cs', st' = set_colorScale (Some cs') st.
Proof.
  induction sel as [|g sel IH]; intros st st' sel'; simpl.
  - intros H. injection H as <- _. now left.
  - destruct (renderGroup st g) as [[st1 g1]|] eqn:Hr; [|discriminate].
    simpl. destruct (each st1 sel) as [[st2 sel2]|] eqn:He; [|discriminate].
    simpl. intros H. injection H as <- _.
    destruct (renderGroup_frame _ _ _ _ Hr) as [cs1 ->].
    right. destruct (IH _ _ _ He) as [->|[cs2 ->]];
      [now exists cs1 | now exists cs2].
Qed.

(** The scales a render leaves: those set before it, or else the ones
    [init] builds from the first datum. *)
Lemma myWith_scales niceDomain st sel st' sel' :
  myWith niceDomain st sel = Ok (st', sel') ->
  exists data,
    first_datum sel = Some data /\
    xScale st' =
      Some (match xScale st with
            | None =>
                D3.scaleTime
                  [newDate (nsub (D3.min (values data) date_of) (Some 86400000));
                   newDate (nadd (D3.max (values data) date_of) (Some 86400000))]
                  [Some 0; Some (width st)]
            | Some xScale => xScale
            end) /\
    yScale st' =
      Some (match yScale st with
            | None =>
                D3.niceWith niceDomain
                  (D3.scaleLinear [D3.min (values data) low;
                                   D3.max (values data) high]
                                  [Some (height st); Some 0])
            | Some yScale => yScale
            end) /\
    width st' = width st /\ height st' = height st /\
    colors st' = colors st /\ candleWidth st' = candleWidth st /\
    dispatch st' = dispatch st.
Proof.
  unfold myWith. destruct (first_datum sel) as [data|]; [|discriminate].
  unfold initWith. cbn [JS.bind]. intros He. exists data. split; [reflexivity|].
  destruct (each_frame _ _ _ _ He) as [->|[cs' ->]];
    cbn [xScale yScale width height colors candleWidth dispatch set_colorScale];
    repeat split.
Qed.

Lemma my_scales st sel st' sel' :
  my st sel = Ok (st', sel') ->
  exists data,
    first_datum sel = Some data /\
    xScale st' =
      Some (match xScale st with
            | None =>
                D3.scaleTime
                  [newDate (nsub (D3.min (values data) date_of) (Some 86400000));
                   newDate (nadd (D3.max (values data) date_of) (Some 86400000))]
                  [Some 0; Some (width st)]
            | Some xScale => xScale
            end) /\
    yScale st' =
      Some (match yScale st with
            | None =>
                D3.nice (D3.scaleLinear [D3.min (values data) low;
                                         D3.max (values data) high]
                                        [Some (height st); Some 0])
            | Some yScale => yScale
            end) /\
    width st' = width st /\ height st' = height st /\
    colors st' = colors st /\ candleWidth st' = candleWidth st /\
    dispatch st' = dispatch st.
Proof. exact (myWith_scales nice_domain st sel st' sel'). Qed.



(** The colours setter does not reach [renderGroup], [each] or, while a
    colour scale is set, [init]. *)
Lemma renderGroup_colors c st g :
  renderGroup (set_colors c st) g =
  match renderGroup st g with
  | Ok (st', g') => Ok (set_colors c st', g')
  | Threw e => Threw e
  end.
Proof.
  unfold renderGroup. simpl. destruct (g_datum g); [|reflexivity].
  destruct (xScale st), (yScale st), (colorScale st); try reflexivity.
  destruct (attr_color _ _) as [fills cs1].
  destruct (attr_color cs1 _) as [strokes cs2]. reflexivity.
Qed.

Lemma each_colors c sel : forall st,
  each (set_colors c st) sel =
  match each st sel with
  | Ok (st', sel') => Ok (set_colors c st', sel')
  | Threw e => Threw e
  end.
Proof.
  induction sel as [|g sel IH]; intros st; simpl; [reflexivity|].
  rewrite renderGroup_colors.
  destruct (renderGroup st g) as [[st1 g1]|]; simpl; [|reflexivity].
  rewrite IH. destruct (each st1 sel) as [[st2 sel2]|]; reflexivity.
Qed.

Lemma my_colors_commute c st sel :
  colorScale st <> None ->
  my (set_colors c st) sel =
  match my st sel with
  | Ok (st', sel') => Ok (set_colors c st', sel')
  | Threw e => Threw e
  end.
Proof.
  intros Hcs. unfold my, myWith. destruct (first_datum sel) as [data|]; [|reflexivity].
  destruct (colorScale st) as [cs|] eqn:E; [|now elim Hcs].
  unfold init, initWith. cbn [JS.bind]. rewrite <- each_colors.
  unfold set_colors. simpl. rewrite E. reflexivity.
Qed.

(** A group without a datum makes [each] throw the host's [TypeError]. *)
Lemma each_throws sel : forall st xs ys cs,
  xScale st = Some xs -> yScale st = Some ys -> colorScale st = Some cs ->
  Exists (fun g => g_datum g = None) sel ->
  each st sel = Threw HostTypeError.
Proof.
  induction sel as [|g sel IH]; intros st xs ys cs Hx Hy Hc Hex;
    [inversion Hex|].
  simpl. destruct (g_datum g) as [d|] eqn:Hd.
  - destruct (renderGroup_spec st g d xs ys cs Hd Hx Hy Hc) as (g1 & Hr & _).
    rewrite Hr. cbn [JS.bind fst].
    inversion Hex as [? ? Hg|? ? Hrest]; subst; [congruence|].
    now rewrite (IH (set_colorScale _ st) xs ys _ Hx Hy eq_refl Hrest).
  - unfold renderGroup. now rewrite Hd.
Qed.

Lemma my_throws st sel :
  sel = [] \/ Exists (fun g => g_datum g = None) sel ->
  my st sel = Threw HostTypeError.
Proof.
  intros [->|Hex]; [reflexivity|].
  unfold my, myWith. destruct (first_datum sel) as [data|] eqn:Hfd; [|reflexivity].
  unfold init, initWith. cbn [JS.bind].
  match goal with |- each ?s _ = _ => set (st1 := s) end.
  apply (each_throws sel st1 _ _ _ eq_refl eq_refl eq_refl Hex).
Qed.

Lemma has_datum_dec g : {has_datum g} + {~ has_datum g}.
Proof.
  unfold has_datum. destruct (g_datum g).
  - left. discriminate.
  - right. intros H. now apply H.
Qed.

(** A second render of what the first one left keeps both scales. *)
Lemma rerender_keeps_scales st sel st1 sel1 st2 sel2 :
  my st sel = Ok (st1, sel1) -> my st1 sel1 = Ok (st2, sel2) ->
  xScale st2 = xScale st1 /\ yScale st2 = yScale st1.
Proof.
  intros H1 H2.
  destruct (my_scales _ _ _ _ H1) as (d1 & _ & Hx1 & Hy1 & _).
  destruct (my_scales _ _ _ _ H2) as (d2 & _ & Hx2 & Hy2 & _).
  rewrite Hx1 in Hx2. rewrite Hy1 in Hy2. rewrite Hx2, Hy2, Hx1, Hy1.
  now split.
Qed.

(** The getters and setters other than [my.dispatch]: a setter stores
    its argument and returns the component, a getter returns what is
    stored and leaves the state as it is. *)
Lemma setters_store st :
  (forall v, my_width st (Some v) = Ok (set_width v st, Component) /\
             my_width (set_width v st) None = Ok (set_width v st, Value v)) /\
  (forall v, my_height st (Some v) = Ok (set_height v st, Component) /\
             my_height (set_height v st) None = Ok (set_height v st, Value v)) /\
  (forall v, my_colors st (Some v) = Ok (set_colors v st, Component) /\
             my_colors (set_colors v st) None = Ok (set_colors v st, Value v)) /\
  (forall v, my_colorScale st (Some v) = Ok (set_colorScale v st, Component) /\
             my_colorScale (set_colorScale v st) None
               = Ok (set_colorScale v st, Value v)) /\
  (forall v, my_xScale st (Some v) = Ok (set_xScale v st, Component) /\
             my_xScale (set_xScale v st) None = Ok (set_xScale v st, Value v)) /\
  (forall v, my_yScale st (Some v) = Ok (set_yScale v st, Component) /\
             my_yScale (set_yScale v st) None = Ok (set_yScale v st, Value v)) /\
  (forall v, my_candleWidth st (Some v) = Ok (set_candleWidth v st, Component) /\
             my_candleWidth (set_candleWidth v st) None
               = Ok (set_candleWidth v st, Value v)).
Proof. repeat split. Qed.

(** Setting the width leaves every other closure variable as it was;
    the other setters are written the same way. *)
Lemma set_width_frame v st :
  height (set_width v st) = height st /\
  colors (set_width v st) = colors st /\
  dispatch (set_width v st) = dispatch st /\
  xScale (set_width v st) = xScale st /\
  yScale (set_width v st) = yScale st /\
  colorScale (set_width v st) = colorScale st /\
  candleWidth (set_width v st) = candleWidth st /\
  classed (set_width v st) = classed st.
Proof. repeat split. Qed.

(** A series without values renders without an exception: nothing is
    drawn, and the scales are built on undefined minima and maxima. *)
Example empty_values_render :
  exists st' xScale' yScale',
    my default [mkSeriesNode (Some (mkSeries "none" [])) [] None []]
      = Ok (st', [mkSeriesNode (Some (mkSeries "none" [])) ["candleSticks"%string]
                               (Some "none"%string) []]) /\
    xScale st' = Some xScale' /\ yScale st' = Some yScale' /\
    D3.s_domain xScale' = [None; None] /\
    D3.s_domain yScale' = [None; None] /\
    forall x, D3.s_call yScale' x = None.
Proof.
  do 3 eexists. split; [reflexivity|]. split; [reflexivity|].
  split; [reflexivity|]. split; [reflexivity|]. split; [reflexivity|].
  intros x. reflexivity.
Qed.

(** The attributes are set where a group is appended.  A group kept
    from an earlier render is rebound to its new datum and keeps the
    colours and the bar it has. *)
Example update_keeps_attributes :
  match my default [mkSeriesNode (Some (mkSeries "stock" [Samples.upCandle])) [] None []] with
  | Ok (st1, [g1]) =>
      match my st1 [mkSeriesNode (Some (mkSeries "stock" [Samples.downCandle]))
                                 (g_classes g1) (g_id g1) (g_candles g1)] with
      | Ok (_, [g2]) =>
          map (fun c => (c_datum c, c_fill c, c_stroke c)) (g_candles g2)
            = [(Samples.downCandle, Some "green"%string, Some "green"%string)] /\
          map c_bar (g_candles g2) = map c_bar (g_candles g1)
      | _ => False
      end
  | _ => False
  end.
Proof. vm_compute. split; reflexivity. Qed.

(** A group whose datum got shorter keeps the candles beyond it. *)
Example exit_not_removed :
  match my default [Samples.stockGroup] with
  | Ok (st1, [g1]) =>
      match my st1 [mkSeriesNode (Some (mkSeries "stock" [Samples.upCandle]))
                                 (g_classes g1) (g_id g1) (g_candles g1)] with
      | Ok (_, [g2]) => List.length (g_candles g2) = 3%nat
      | _ => False
      end
  | _ => False
  end.
Proof. vm_compute. reflexivity. Qed.

End CandleFacts.

(** ** The circularLabels render *)

Module LabelFacts.

Import CircularLabels.

Section Nodes.

Variable D : Type.

Lemma joinTexts_shows anchor data : forall nodes,
  map t_text (joinTexts anchor nodes data) = map text data /\
  map t_startOffset (joinTexts anchor nodes data) = map offset data.
Proof.
  induction data as [|d data IH]; intros nodes; simpl; [now split|].
  destruct nodes as [|n nodes]; simpl;
    [destruct (IH []) as [H1 H2] | destruct (IH nodes) as [H1 H2]];
    now rewrite H1, H2.
Qed.

(** One run of the body, with a radial scale set: every node then
    shows the label data of the scale. *)
Lemma body_ok st sel s :
  radialScale st = Some s ->
  exists st' sel' log,
    body D st sel = Ok (st', sel', log) /\ radialScale st' = Some s /\
    List.length sel' = List.length sel /\
    Forall (shows (textData s (fst (tickData s)))) sel'.
Proof.
  intros Hs. unfold body. simpl. rewrite Hs.
  destruct (tickData s) as [ticks log].
  do 3 eexists. split; [reflexivity|]. split; [reflexivity|].
  split; [now rewrite !length_map|].
  rewrite Forall_map, Forall_map. apply Forall_forall. intros n _.
  unfold shows, drawTexts, appendLabels. simpl.
  eexists. split; [reflexivity|]. simpl. apply joinTexts_shows.
Qed.

Lemma each_ok n : forall st sel log s,
  radialScale st = Some s ->
  Forall (shows (textData s (fst (tickData s)))) sel ->
  exists st' sel' log',
    each D n st sel log = Ok (st', sel', log') /\
    List.length sel' = List.length sel /\
    Forall (shows (textData s (fst (tickData s)))) sel'.
Proof.
  induction n as [|n IH]; intros st sel log s Hs Hsh; simpl; [eauto 6|].
  destruct (body_ok st sel s Hs) as (st' & sel' & log' & Hb & Hs' & Hl & Hsh').
  rewrite Hb. cbn [JS.bind fst snd].
  destruct (IH st' sel' (log ++ log')%list s Hs' Hsh')
    as (st2 & sel2 & log2 & He & Hl2 & Hsh2).
  do 3 eexists. split; [exact He|]. split; [congruence | exact Hsh2].
Qed.

(** A render with a radial scale set, on a selection that is not
    empty: every node shows the label data. *)
Lemma my_shows st sel s :
  sel <> [] -> radialScale st = Some s ->
  exists st' sel' log,
    my D st sel = Ok (st', sel', log) /\
    List.length sel' = List.length sel /\
    Forall (shows (textData s (fst (tickData s)))) sel'.
Proof.
  intros Hne Hs. unfold my. destruct sel as [|n sel]; [now elim Hne|].
  cbn [List.length each].
  destruct (body_ok st (n :: sel) s Hs) as (st' & sel' & log' & Hb & Hs' & Hl & Hsh').
  rewrite Hb. cbn [JS.bind fst snd].
  destruct (each_ok (List.length sel) st' sel' ([] ++ log')%list s Hs' Hsh')
    as (st2 & sel2 & log2 & He & Hl2 & Hsh2).
  do 3 eexists. split; [exact He|]. split; [rewrite Hl2, Hl; reflexivity | exact Hsh2].
Qed.

Lemma each_any n : forall st sel log s,
  radialScale st = Some s ->
  exists r, each D n st sel log = Ok r.
Proof.
  induction n as [|n IH]; intros st sel log s Hs; simpl; [eauto|].
  destruct (body_ok st sel s Hs) as (st' & sel' & log' & Hb & Hs' & _).
  rewrite Hb. cbn [JS.bind fst snd]. now apply (IH _ _ _ s).
Qed.

Lemma labels_ok st sel :
  sel = [] \/ radialScale st <> None -> exists r, my D st sel = Ok r.
Proof.
  unfold my. intros [->|Hs]; [simpl; eauto|].
  destruct (radialScale st) as [s|] eqn:E; [|now elim Hs].
  now apply (each_any _ _ _ _ s).
Qed.

Lemma labels_throw st sel :
  sel <> [] -> radialScale st = None -> my D st sel = Threw HostTypeError.
Proof.
  intros Hne Hs. unfold my. destruct sel as [|n sel]; [now elim Hne|].
  simpl. unfold body. simpl. now rewrite Hs.
Qed.

End Nodes.

Lemma map_index_nth {A B C} (f : A -> nat -> B) (g : B -> C) (l : list A) :
  forall k i,
  nth_error (map g (map_index f k l)) i =
  option_map (fun d => g (f d (k + i)%nat)) (nth_error l i).
Proof.
  induction l as [|d l IH]; intros k i; simpl.
  - now destruct i.
  - destruct i as [|i]; simpl; [now rewrite Nat.add_0_r|].
    rewrite IH. now rewrite Nat.add_succ_r.
Qed.

Lemma map_index_text {A B} (f : A -> nat -> B) (g : B -> A) (l : list A) :
  (forall d i, g (f d i) = d) ->
  forall k, map g (map_index f k l) = l.
Proof.
  intros H. induction l as [|d l IH]; intros k; simpl; [reflexivity|].
  now rewrite H, IH.
Qed.

(** The label data: the ticks as texts, each with its offset. *)
Lemma textData_text s ticks : map text (textData s ticks) = ticks.
Proof. unfold textData. now apply map_index_text. Qed.

Lemma textData_offset s ticks i o :
  nth_error (map offset (textData s ticks)) i = Some o ->
  (i < List.length ticks)%nat /\
  o = nmul (ndiv (D3.s_call
                    (D3.scaleLinear [Some 0; Some (Q_of_nat (List.length ticks))]
                                    (range_of s))
                    (Q_of_nat i))
                 (Some 360))
           (Some 100).
Proof.
  unfold textData. rewrite map_index_nth. simpl.
  destruct (nth_error ticks i) as [d|] eqn:E; [|discriminate].
  simpl. intros H. injection H as <-. split; [|reflexivity].
  apply nth_error_Some. congruence.
Qed.

Lemma Q_of_nat_pos n : (0 < n)%nat -> 0 < Q_of_nat n.
Proof. intros H. unfold Q_of_nat, Qlt. simpl. lia. Qed.

(** On the full circle the [i]-th of [n] offsets is [i * 100 / n]. *)
Lemma offset_full_circle (n i : nat) r0 r1 :
  (i < n)%nat -> r0 == 0 -> r1 == 360 ->
  num_eq (nmul (ndiv (D3.s_call
                        (D3.scaleLinear [Some 0; Some (Q_of_nat n)]
                                        [Some r0; Some r1])
                        (Q_of_nat i))
                     (Some 360))
               (Some 100))
         (Some (Q_of_nat i * 100 / Q_of_nat n)).
Proof.
  intros Hi H0 H1.
  assert (Hn : 0 < Q_of_nat n) by (apply Q_of_nat_pos; lia).
  unfold D3.scaleLinear, D3.bimap; simpl.
  assert (Hlt : JS.lt (Q_of_nat n) 0 = false) by (apply lt_false_iff; lra).
  rewrite Hlt. unfold D3.interpolateNumber, D3.deinterpolateLinear.
  assert (Hz : Qeq_bool (Q_of_nat n - 0) 0 = false).
  { apply not_true_iff_false. rewrite Qeq_bool_iff. lra. }
  rewrite Hz. rewrite H0, H1. field. lra.
Qed.

End LabelFacts.

(** ** The line chart render *)

Module LineFacts.

Import LineChart.

Section Imports.

Variable dataParse : list series -> sliced.

(** A render hands back the array with its keys converted. *)
Lemma render_converts st data st' data' :
  render dataParse st data = Ok (st', data') -> data' = convertDates data.
Proof.
  unfold render, init. destruct data as [|first rest]; [discriminate|].
  cbn [convertDates map JS.bind fst snd]. intros H. now injection H as _ <-.
Qed.

(** The x domain after a render is the extent of the first series'
    keys, each taken a thousand times. *)
Lemma render_x_domain st first rest st' data' :
  render dataParse st (first :: rest) = Ok (st', data') ->
  option_map D3.s_domain (xScale st') =
    Some (D3.extent (values first) (fun b => inject_Z (key b * 1000))).
Proof.
  unfold render, init. cbn [convertDates map JS.bind fst snd].
  intros H. injection H as <- _. simpl. f_equal.
  unfold D3.extent. now rewrite map_map.
Qed.

(** Two renders of one array: the second sees the keys the first left,
    and takes each a thousand times again. *)
Lemma render_twice st first rest st1 data1 st2 data2 :
  render dataParse st (first :: rest) = Ok (st1, data1) ->
  render dataParse st1 data1 = Ok (st2, data2) ->
  option_map D3.s_domain (xScale st1) =
    Some (D3.extent (values first) (fun b => inject_Z (key b * 1000))) /\
  option_map D3.s_domain (xScale st2) =
    Some (D3.extent (values first) (fun b => inject_Z (key b * 1000 * 1000))).
Proof.
  intros H1 H2. split; [now apply (render_x_domain _ _ _ _ _ H1)|].
  rewrite (render_converts _ _ _ _ H1) in H2. cbn [convertDates map] in H2.
  rewrite (render_x_domain _ _ _ _ _ H2). simpl. f_equal.
  unfold D3.extent. now rewrite map_map.
Qed.

End Imports.

End LineFacts.

(** ** candleSticks: the whole of a rendered group *)

Module CandleMore.

Import D3 CandleSticks OrdinalFacts CandleFacts Layout.

Lemma attr_color_length ds : forall cs,
  List.length (fst (attr_color cs ds)) = List.length ds.
Proof.
  induction ds as [|d ds IH]; intros cs; simpl; [reflexivity|].
  destruct (ordinal_call cs (key_of_bool (isUpDay d))) as [c cs1].
  specialize (IH cs1). destruct (attr_color cs1 ds) as [vals cs2].
  simpl in *. now rewrite IH.
Qed.

(** The children of a group after [renderGroup], in full: the update
    and enter candles with their shapes, then the exit candles. *)
Lemma renderGroup_full st g d xs ys cs :
  g_datum g = Some d ->
  xScale st = Some xs -> yScale st = Some ys -> colorScale st = Some cs ->
  let entering := join_enter (g_candles g) (values d) in
  let fills := fst (attr_color cs entering) in
  let cs' := snd (attr_color cs entering) in
  renderGroup st g =
    Ok (set_colorScale (Some cs') st,
        {| g_datum := Some d;
           g_classes := classed_add (classed st) (g_classes g);
           g_id := Some (key d);
           g_candles :=
             (map (shapes xs ys (candleWidth st))
                  (join_update (g_candles g) (values d)
                     ++ map (fun dc => appendCandle (fst dc) (snd dc, snd dc))
                            (combine entering fills))
                ++ join_exit (g_candles g) (values d))%list |}).
Proof.
  intros Hd Hx Hy Hc entering fills cs'.
  pose proof (attr_color_settled entering cs) as Hset.
  fold cs' fills in Hset.
  unfold renderGroup. rewrite Hd, Hx, Hy, Hc. fold entering.
  destruct (attr_color cs entering) as [fills0 cs1] eqn:E1.
  simpl in cs', fills, Hset. subst cs' fills.
  rewrite (attr_color_again _ _ _ Hset).
  do 3 f_equal. rewrite map_map. f_equal. f_equal. f_equal.
  etransitivity;
    [|exact (combine_twice (fun d a b => appendCandle d (a, b)) entering fills0)].
  apply map_ext. intros [d' [a b]]. reflexivity.
Qed.

Lemma shapes_datum xs ys cw n : c_datum (shapes xs ys cw n) = c_datum n.
Proof. reflexivity. Qed.

Lemma shapes_present xs ys cw n :
  c_highLow (shapes xs ys cw n) <> None /\ c_bar (shapes xs ys cw n) <> None.
Proof.
  unfold shapes, openCloseBars, highLowLines; simpl.
  split; [destruct (c_highLow n) | destruct (c_bar n)]; discriminate.
Qed.

(** A candle that has both shapes is left as it is. *)
Lemma shapes_fixed xs ys cw n :
  c_highLow n <> None -> c_bar n <> None -> shapes xs ys cw n = n.
Proof.
  destruct n as [d f s [hl|] [bar|]]; intros H1 H2;
    try (now elim H1); try (now elim H2). reflexivity.
Qed.

Lemma shapes_fixed_all xs ys cw l :
  Forall (fun c => c_highLow c <> None /\ c_bar c <> None) l ->
  map (shapes xs ys cw) l = l.
Proof.
  induction 1 as [|c l [H1 H2] _ IH]; simpl; [reflexivity|].
  now rewrite IH, (shapes_fixed _ _ _ _ H1 H2).
Qed.

Lemma join_update_datum nodes : forall data,
  map c_datum (join_update nodes data)
    = firstn (Nat.min (List.length nodes) (List.length data)) data.
Proof.
  unfold join_update.
  induction nodes as [|n nodes IH]; intros [|d data]; simpl; try reflexivity.
  now rewrite IH.
Qed.

Lemma combine_fst {A B} (l : list A) : forall (m : list B),
  List.length m = List.length l -> map fst (combine l m) = l.
Proof.
  induction l as [|a l IH]; intros [|b m] H; simpl in *; try discriminate;
    [reflexivity|]. rewrite IH; [reflexivity | lia].
Qed.

(** Rebinding the data a group's candles already carry changes nothing. *)
Lemma join_update_same nodes : forall data,
  (List.length data <= List.length nodes)%nat ->
  map c_datum (firstn (List.length data) nodes) = data ->
  join_update nodes data = firstn (List.length data) nodes.
Proof.
  unfold join_update.
  induction nodes as [|n nodes IH]; intros [|d data] Hl Hd; simpl in *;
    try reflexivity; try lia.
  injection Hd as Hn Hd. rewrite IH by (trivial; lia).
  destruct n; simpl in *. now subst.
Qed.

Lemma join_update_colours nodes : forall data,
  map (fun c => (c_fill c, c_stroke c)) (join_update nodes data)
    = map (fun c => (c_fill c, c_stroke c))
          (firstn (Nat.min (List.length nodes) (List.length data)) nodes).
Proof.
  unfold join_update.
  induction nodes as [|n nodes IH]; intros [|d data]; simpl; try reflexivity.
  now rewrite IH.
Qed.

Lemma join_update_shapes nodes : forall data,
  map (fun c => (c_highLow c, c_bar c)) (join_update nodes data)
    = map (fun c => (c_highLow c, c_bar c))
          (firstn (Nat.min (List.length nodes) (List.length data)) nodes).
Proof.
  unfold join_update.
  induction nodes as [|n nodes IH]; intros [|d data]; simpl; try reflexivity.
  now rewrite IH.
Qed.

(** The layout of a group after [renderGroup]. *)
Lemma renderGroup_layout st g st' g' :
  xScale st <> None -> yScale st <> None -> colorScale st <> None ->
  renderGroup st g = Ok (st', g') ->
  exists d,
    g_datum g = Some d /\ g_datum g' = Some d /\
    g_id g' = Some (key d) /\
    g_classes g' = classed_add (classed st) (g_classes g) /\
    List.length (g_candles g')
      = Nat.max (List.length (g_candles g)) (List.length (values d)) /\
    map c_datum (firstn (List.length (values d)) (g_candles g')) = values d /\
    skipn (List.length (values d)) (g_candles g')
      = skipn (List.length (values d)) (g_candles g) /\
    Forall (fun c => c_highLow c <> None /\ c_bar c <> None)
           (firstn (List.length (values d)) (g_candles g')) /\
    map (fun c => (c_fill c, c_stroke c))
        (firstn (List.length (g_candles g)) (g_candles g'))
      = map (fun c => (c_fill c, c_stroke c)) (g_candles g).
Proof.
  intros Hx Hy Hc Hr.
  destruct (g_datum g) as [d|] eqn:Hd;
    [|unfold renderGroup in Hr; rewrite Hd in Hr; discriminate].
  destruct (xScale st) as [xs|] eqn:Ex; [|now elim Hx].
  destruct (yScale st) as [ys|] eqn:Ey; [|now elim Hy].
  destruct (colorScale st) as [cs|] eqn:Ec; [|now elim Hc].
  rewrite (renderGroup_full st g d xs ys cs Hd Ex Ey Ec) in Hr.
  injection Hr as _ <-. exists d. cbn [g_datum g_id g_classes g_candles].
  do 4 (split; [reflexivity|]).
  set (old := g_candles g). set (vals := values d).
  set (U := join_update old vals).
  set (N := map (fun dc => appendCandle (fst dc) (snd dc, snd dc))
                (combine (join_enter old vals)
                         (fst (attr_color cs (join_enter old vals))))).
  set (A := map (shapes xs ys (candleWidth st)) (U ++ N)).
  assert (HU : List.length U = Nat.min (List.length old) (List.length vals))
    by apply join_update_length.
  assert (HE : List.length (join_enter old vals)
               = (List.length vals - List.length old)%nat)
    by (unfold join_enter; apply length_skipn).
  assert (HN : List.length N = (List.length vals - List.length old)%nat).
  { unfold N. rewrite length_map, length_combine, attr_color_length. lia. }
  assert (HA : List.length A = List.length vals).
  { unfold A. rewrite length_map, length_app. lia. }
  assert (HX : List.length (join_exit old vals)
               = (List.length old - List.length vals)%nat)
    by (unfold join_exit; apply length_skipn).
  assert (HND : map c_datum N = join_enter old vals).
  { unfold N. rewrite map_map. cbn [c_datum appendCandle].
    apply combine_fst. now rewrite attr_color_length. }
  split; [rewrite length_app; lia|].
  assert (HF : firstn (List.length vals) (A ++ join_exit old vals) = A).
  { rewrite firstn_app, HA, Nat.sub_diag, firstn_O, app_nil_r.
    rewrite <- HA. apply firstn_all. }
  rewrite !HF.
  split.
  { unfold A. rewrite map_map.
    rewrite (map_ext _ c_datum) by (intros; apply shapes_datum).
    rewrite map_app, HND. unfold U. rewrite join_update_datum.
    unfold join_enter.
    destruct (Nat.le_gt_cases (List.length vals) (List.length old)).
    - rewrite Nat.min_r by lia. rewrite firstn_all.
      rewrite skipn_all2 by lia. apply app_nil_r.
    - rewrite Nat.min_l by lia. apply firstn_skipn. }
  split.
  { rewrite skipn_app, HA, Nat.sub_diag.
    rewrite (skipn_all2 A) by lia. reflexivity. }
  split.
  { unfold A. apply Forall_map. apply Forall_forall. intros c _.
    apply shapes_present. }
  destruct (Nat.le_gt_cases (List.length vals) (List.length old)) as [Hle|Hgt].
  - assert (HN0 : N = []) by (apply length_zero_iff_nil; lia).
    rewrite firstn_all2 by (rewrite length_app; lia).
    unfold A. rewrite HN0, app_nil_r, map_app, map_map.
    rewrite (map_ext _ (fun c => (c_fill c, c_stroke c))) by reflexivity.
    unfold U. rewrite join_update_colours, Nat.min_r by lia.
    unfold join_exit. rewrite <- map_app. now rewrite firstn_skipn.
  - rewrite firstn_app, HA.
    replace (List.length old - List.length vals)%nat with 0%nat by lia.
    rewrite firstn_O, app_nil_r. unfold A.
    rewrite map_app. rewrite firstn_app, length_map, HU, Nat.min_l by lia.
    rewrite Nat.sub_diag, firstn_O, app_nil_r.
    rewrite firstn_all2 by (rewrite length_map; lia).
    rewrite map_map.
    rewrite (map_ext _ (fun c => (c_fill c, c_stroke c))) by reflexivity.
    unfold U. rewrite join_update_colours, Nat.min_l by lia.
    now rewrite firstn_all.
Qed.

(** A property of every group render holds of every group of a
    selection that [each] renders. *)
Lemma each_Forall2 (P : seriesNode -> seriesNode -> Prop) (stR : state) :
  (forall st g st' g',
      xScale st = xScale stR -> yScale st = yScale stR ->
      candleWidth st = candleWidth stR -> classed st = classed stR ->
      colorScale st <> None ->
      renderGroup st g = Ok (st', g') -> P g g') ->
  forall sel st st' sel',
    xScale st = xScale stR -> yScale st = yScale stR ->
    candleWidth st = candleWidth stR -> classed st = classed stR ->
    colorScale st <> None ->
    each st sel = Ok (st', sel') -> Forall2 P sel sel'.
Proof.
  intros HP. induction sel as [|g sel IH]; intros st st' sel' Hx Hy Hw Hcl Hc; simpl.
  - intros H. injection H as _ <-. constructor.
  - destruct (renderGroup st g) as [[st1 g1]|] eqn:Hr; [|discriminate].
    cbn [JS.bind fst snd].
    destruct (each st1 sel) as [[st2 sel2]|] eqn:He; [|discriminate].
    cbn [JS.bind fst snd]. intros H. injection H as _ <-.
    destruct (renderGroup_frame _ _ _ _ Hr) as [cs1 ->].
    constructor; [now apply (HP st g (set_colorScale (Some cs1) st) g1)|].
    apply (IH (set_colorScale (Some cs1) st) st2); trivial. discriminate.
Qed.

(** The same for [my]; the scales are those the render leaves. *)
Lemma my_Forall2 (P : seriesNode -> seriesNode -> Prop) st sel st' sel' :
  my st sel = Ok (st', sel') ->
  (forall st0 g st1 g',
      xScale st0 = xScale st' -> yScale st0 = yScale st' ->
      candleWidth st0 = candleWidth st -> classed st0 = classed st ->
      colorScale st0 <> None ->
      renderGroup st0 g = Ok (st1, g') -> P g g') ->
  Forall2 P sel sel'.
Proof.
  unfold my, myWith. destruct (first_datum sel) as [data|]; [|discriminate].
  unfold init, initWith. cbn [JS.bind]. intros He HP.
  match type of He with each ?s _ = _ => set (st0 := s) in * end.
  assert (Hfr : xScale st' = xScale st0 /\ yScale st' = yScale st0).
  { destruct (each_frame _ _ _ _ He) as [->|[cs' ->]]; now split. }
  destruct Hfr as [Fx Fy].
  apply (each_Forall2 P st0) with (st := st0) (st' := st'); trivial;
    [|subst st0; discriminate].
  intros sta g stb g' Hx Hy Hw Hcl Hc Hr.
  apply (HP sta g stb g'); trivial; congruence.
Qed.

Lemma classed_add_present class classes :
  existsb (String.eqb class) (classed_add class classes) = true.
Proof.
  unfold classed_add. destruct (existsb (String.eqb class) classes) eqn:E;
    [exact E|].
  rewrite existsb_app. simpl. rewrite String.eqb_refl. apply orb_true_r.
Qed.

(** [init] changes nothing once the three scales are set. *)
Lemma init_fixed st d xs ys cs :
  xScale st = Some xs -> yScale st = Some ys -> colorScale st = Some cs ->
  init st (Some d) = Ok st.
Proof.
  destruct st; simpl. intros -> -> ->. reflexivity.
Qed.

(** A group in the form a render leaves is left as it is by the next. *)
Lemma renderGroup_settled st g xs ys cs :
  xScale st = Some xs -> yScale st = Some ys -> colorScale st = Some cs ->
  settledGroup (classed st) g ->
  renderGroup st g = Ok (st, g).
Proof.
  intros Hx Hy Hc (d & Hd & Hid & Hcl & Hlen & Hdat & Hsh).
  rewrite (renderGroup_full st g d xs ys cs Hd Hx Hy Hc).
  assert (HE : join_enter (g_candles g) (values d) = [])
    by (unfold join_enter; now apply skipn_all2).
  rewrite HE. cbn [attr_color fst snd combine map].
  rewrite (set_colorScale_same _ _ Hc), app_nil_r.
  rewrite (join_update_same _ _ Hlen Hdat).
  rewrite (shapes_fixed_all _ _ _ _ Hsh). unfold join_exit. rewrite firstn_skipn.
  unfold classed_add. rewrite Hcl.
  destruct g; simpl in *. now subst.
Qed.

Lemma each_settled sel : forall st xs ys cs,
  xScale st = Some xs -> yScale st = Some ys -> colorScale st = Some cs ->
  Forall (settledGroup (classed st)) sel ->
  each st sel = Ok (st, sel).
Proof.
  induction sel as [|g sel IH]; intros st xs ys cs Hx Hy Hc Hall; simpl;
    [reflexivity|].
  inversion Hall as [|? ? Hg Hrest]; subst.
  rewrite (renderGroup_settled st g xs ys cs Hx Hy Hc Hg). cbn [JS.bind fst snd].
  now rewrite (IH st xs ys cs Hx Hy Hc Hrest).
Qed.

(** Every group a render has gone through is in the settled form. *)
Lemma renderGroup_settles st g st' g' :
  xScale st <> None -> yScale st <> None -> colorScale st <> None ->
  renderGroup st g = Ok (st', g') ->
  g_datum g' = g_datum g /\ settledGroup (classed st) g'.
Proof.
  intros Hx Hy Hc Hr.
  destruct (renderGroup_layout _ _ _ _ Hx Hy Hc Hr)
    as (d & Hd & Hd' & Hid & Hcl & Hlen & Hdat & _ & Hsh & _).
  split; [congruence|]. exists d. split; [exact Hd'|]. split; [exact Hid|].
  split; [rewrite Hcl; apply classed_add_present|].
  split; [lia|]. now split.
Qed.

Lemma decreasing_total f x : decreasing f -> exists y, f x = Some y.
Proof.
  intros H. destruct (H x x (Qle_refl x)) as (y & _ & Hy & _). now exists y.
Qed.

Lemma decreasing_le f a b fa fb :
  decreasing f -> a <= b -> f a = Some fa -> f b = Some fb -> fb <= fa.
Proof.
  intros H Hab Ha Hb. destruct (H a b Hab) as (ya & yb & Ha' & Hb' & Hle).
  rewrite Ha in Ha'. rewrite Hb in Hb'.
  injection Ha' as <-. injection Hb' as <-. exact Hle.
Qed.

(** The setters of [width] and [height] do not reach [renderGroup] or
    [each]; they reach [init] only while the scale they feed is unset. *)
Lemma renderGroup_size w h st g :
  renderGroup (set_width w (set_height h st)) g =
  match renderGroup st g with
  | Ok (st', g') => Ok (set_width w (set_height h st'), g')
  | Threw e => Threw e
  end.
Proof.
  unfold renderGroup. simpl. destruct (g_datum g); [|reflexivity].
  destruct (xScale st), (yScale st), (colorScale st); try reflexivity.
  destruct (attr_color _ _) as [fills cs1].
  destruct (attr_color cs1 _) as [strokes cs2]. reflexivity.
Qed.

Lemma each_size w h sel : forall st,
  each (set_width w (set_height h st)) sel =
  match each st sel with
  | Ok (st', sel') => Ok (set_width w (set_height h st'), sel')
  | Threw e => Threw e
  end.
Proof.
  induction sel as [|g sel IH]; intros st; simpl; [reflexivity|].
  rewrite renderGroup_size.
  destruct (renderGroup st g) as [[st1 g1]|]; simpl; [|reflexivity].
  rewrite IH. destruct (each st1 sel) as [[st2 sel2]|]; reflexivity.
Qed.

Lemma my_size_commute w h st sel :
  xScale st <> None -> yScale st <> None ->
  my (set_width w (set_height h st)) sel =
  match my st sel with
  | Ok (st', sel') => Ok (set_width w (set_height h st'), sel')
  | Threw e => Threw e
  end.
Proof.
  intros Hx Hy. unfold my, myWith. destruct (first_datum sel) as [data|]; [|reflexivity].
  destruct (xScale st) as [xs|] eqn:Ex; [|now elim Hx].
  destruct (yScale st) as [ys|] eqn:Ey; [|now elim Hy].
  unfold init, initWith. cbn [JS.bind]. rewrite <- each_size.
  unfold set_width, set_height. simpl. rewrite Ex, Ey. reflexivity.
Qed.







End CandleMore.

(** ** circularLabels: what repeated runs of the body keep *)

Module LabelMore.

Import CircularLabels.

Section Nodes.

Variable D : Type.

(** The radius a render works with. *)
Lemma body_eq st sel s :
  radialScale st = Some s ->
  body D st sel =
    Ok (mkState (width st) (height st) (Some s)
                (Some (match radius st with
                       | None => JS.Math_min (width st) (height st) / 2
                       | Some radius => radius
                       end))
                (textAnchor st),
        map (fun n =>
               drawTexts D (textAnchor st) (textData s (fst (tickData s)))
                 (appendLabels D
                    (match radius st with
                     | None => JS.Math_min (width st) (height st) / 2
                     | Some radius => radius
                     end) n))
            sel,
        snd (tickData s)).
Proof.
  intros Hs. unfold body. simpl. rewrite Hs.
  destruct (tickData s) as [ticks log]. simpl. now rewrite map_map.
Qed.

(** What holds after the first run of the body and is kept by every
    further run holds after [my]. *)
Lemma my_invariant (Inv : state -> list (node D) -> Prop) st sel s :
  sel <> [] -> radialScale st = Some s ->
  (forall st' sel' log, body D st sel = Ok (st', sel', log) ->
                        Inv st' sel' /\ radialScale st' = Some s) ->
  (forall st1 sel1 st2 sel2 log,
      Inv st1 sel1 -> radialScale st1 = Some s ->
      body D st1 sel1 = Ok (st2, sel2, log) ->
      Inv st2 sel2 /\ radialScale st2 = Some s) ->
  exists st' sel' log,
    my D st sel = Ok (st', sel', log) /\ Inv st' sel'.
Proof.
  intros Hne Hs Hfirst Hstep.
  assert (Heach : forall n st1 sel1 log1,
             Inv st1 sel1 -> radialScale st1 = Some s ->
             exists st' sel' log,
               each D n st1 sel1 log1 = Ok (st', sel', log) /\ Inv st' sel').
  { induction n as [|n IH]; intros st1 sel1 log1 HI Hs1; simpl; [eauto 6|].
    rewrite (body_eq st1 sel1 s Hs1). cbn [JS.bind fst snd].
    destruct (Hstep st1 sel1 _ _ _ HI Hs1 (body_eq st1 sel1 s Hs1)) as [HI2 Hs2].
    apply IH; trivial. }
  unfold my. destruct sel as [|n sel]; [now elim Hne|].
  cbn [List.length each]. rewrite (body_eq st (n :: sel) s Hs).
  cbn [JS.bind fst snd].
  destruct (Hfirst _ _ _ (body_eq st (n :: sel) s Hs)) as [HI Hs1].
  apply Heach; trivial.
Qed.

Lemma Forall2_map_r {A B} (R : A -> B -> Prop) (f : B -> B) l l' :
  (forall a b, R a b -> R a (f b)) -> Forall2 R l l' -> Forall2 R l (map f l').
Proof. intros H HF. induction HF; simpl; constructor; auto. Qed.

Lemma Forall2_map_self {A} (R : A -> A -> Prop) (f : A -> A) l :
  (forall a, R a (f a)) -> Forall2 R l (map f l).
Proof. intros H. induction l; simpl; constructor; auto. Qed.

(** The anchors of the texts after a join: those of the texts that were
    there, then the given one. *)
Lemma joinTexts_anchors anchor data : forall nodes,
  map t_anchor (joinTexts anchor nodes data)
    = (firstn (List.length data) (map t_anchor nodes)
         ++ repeat anchor (List.length data - List.length nodes))%list.
Proof.
  induction data as [|d data IH]; intros nodes; simpl; [reflexivity|].
  destruct nodes as [|n nodes]; simpl; rewrite IH; simpl;
    rewrite ?firstn_nil, ?Nat.sub_0_r; reflexivity.
Qed.

Lemma joinTexts_length anchor data : forall nodes,
  List.length (joinTexts anchor nodes data) = List.length data.
Proof.
  induction data as [|d data IH]; intros nodes; simpl; [reflexivity|].
  destruct nodes; simpl; now rewrite IH.
Qed.

(** The log of [each]: one copy of the scale's log per run. *)
Lemma each_log n : forall st sel log s st' sel' log',
  radialScale st = Some s ->
  each D n st sel log = Ok (st', sel', log') ->
  log' = (log ++ List.concat (repeat (snd (tickData s)) n))%list.
Proof.
  induction n as [|n IH]; intros st sel log s st' sel' log' Hs; simpl.
  - intros H. injection H as _ _ <-. now rewrite app_nil_r.
  - rewrite (body_eq st sel s Hs). cbn [JS.bind fst snd]. intros H.
    apply (IH _ _ _ s) in H; [|reflexivity]. rewrite H.
    simpl. now rewrite app_assoc.
Qed.

End Nodes.

Lemma map_index_length {A B} (f : A -> nat -> B) (l : list A) : forall k,
  List.length (map_index f k l) = List.length l.
Proof.
  induction l as [|a l IH]; intros k; simpl; [reflexivity|]. now rewrite IH.
Qed.

Lemma textData_length s ticks :
  List.length (textData s ticks) = List.length ticks.
Proof. unfold textData. apply map_index_length. Qed.

End LabelMore.

(** ** The line chart: what a render reads and what it leaves *)

Module LineMore.

Import LineChart.

Section Imports.

Variable dataParse : list series -> sliced.

(** A render of data with a first series, in full. *)
Lemma render_ok st first rest :
  exists st',
    render dataParse st (first :: rest)
      = Ok (st', convertDates (first :: rest)) /\
    svg st' = true /\
    width st' = width st /\ height st' = height st /\
    margin st' = margin st /\ colors st' = colors st /\
    dispatch st' = dispatch st /\ yAxisLabel st' = yAxisLabel st /\
    xScale st' =
      Some (D3.scaleTime
              (D3.extent (values first) (fun b => inject_Z (key b * 1000)))
              [Some 0;
               Some (width st - left (margin st) - right (margin st))]) /\
    yScale st' =
      Some (D3.scaleLinear
              [Some 0; nmul (maxValue (dataParse (first :: rest))) (Some 1.05)]
              [Some (height st - top (margin st) - bottom (margin st));
               Some 0]).
Proof.
  unfold render, init. cbn [convertDates map JS.bind fst snd].
  eexists. split; [reflexivity|]. cbn.
  do 7 (split; [reflexivity|]). split; [|reflexivity].
  do 2 f_equal. unfold D3.extent. now rewrite map_map.
Qed.

(** [my] goes through a selection and then through another. *)
Lemma my_app sel1 : forall st sel2,
  my dataParse st (sel1 ++ sel2) =
  (r1 <- my dataParse st sel1 ;;
   r2 <- my dataParse (fst r1) sel2 ;;
   Ok (fst r2, (snd r1 ++ snd r2)%list)).
Proof.
  induction sel1 as [|data sel1 IH]; intros st sel2; simpl.
  - destruct (my dataParse st sel2) as [[st2 d2]|]; reflexivity.
  - destruct (render dataParse st data) as [[st1 d1]|]; [|reflexivity].
    cbn [JS.bind fst snd]. rewrite IH.
    destruct (my dataParse st1 sel1) as [[st2 d2]|]; [|reflexivity].
    cbn [JS.bind fst snd].
    destruct (my dataParse st2 sel2) as [[st3 d3]|]; reflexivity.
Qed.



End Imports.

End LineMore.

(** * The properties of the specification *)

Import CandleSticks.




(** C2, as the code has it.  With no x scale and no y scale set, a render
    builds a linear y scale with range [[height, 0]] whose domain is what
    d3's [nice()] makes of [[min low, max high]], whatever its
    computation [niceDomain] of the new domain is.  It builds a time x
    scale with range [[0, width]] and domain
    [[new Date(min date - 86400000), new Date(max date + 86400000)]]: the
    times [min date - 86400000] and [max date + 86400000] when both lie
    within the range of dates.  The minima and maxima are those of the
    first series' values. *)
Theorem C2_scale_domains (niceDomain : list num -> list num)
        (st : state) (sel : selection) (data : series) :
  first_datum sel = Some data -> Forall has_datum sel ->
  xScale st = None -> yScale st = None ->
  exists st' sel' xScale' yScale',
    myWith niceDomain st sel = Ok (st', sel') /\
    xScale st' = Some xScale' /\ yScale st' = Some yScale' /\
    D3.s_kind yScale' = D3.Linear /\
    D3.s_range yScale' = [Some (height st); Some 0] /\
    D3.s_domain yScale' =
      niceDomain [D3.min (values data) low; D3.max (values data) high] /\
    D3.s_kind xScale' = D3.Time /\
    D3.s_range xScale' = [Some 0; Some (width st)] /\
    D3.s_domain xScale' =
      [newDate (nsub (D3.min (values data) date_of) (Some 86400000));
       newDate (nadd (D3.max (values data) date_of) (Some 86400000))] /\
    (values data <> [] ->
     exists (minLow maxHigh : Q) (minDate maxDate : Z),
       D3.least (values data) low minLow /\
       D3.greatest (values data) high maxHigh /\
       D3.least (values data) date_of (inject_Z minDate) /\
       D3.greatest (values data) date_of (inject_Z maxDate) /\
       D3.s_domain yScale' = niceDomain [Some minLow; Some maxHigh] /\
       ((Z.abs (minDate - 86400000) <= JS.maxTime)%Z ->
        (Z.abs (maxDate + 86400000) <= JS.maxTime)%Z ->
        D3.s_domain xScale' =
          [Some (inject_Z (minDate - 86400000));
           Some (inject_Z (maxDate + 86400000))])).
Proof.
  intros Hfd Hall Hx Hy.
  assert (Hne : sel <> []) by (intros ->; discriminate).
  destruct (CandleFacts.myWith_spec niceDomain st sel Hne Hall)
    as (d0 & st1 & xs & ys & cs & cs' & sel' & _ & _ & _ & _ & _ & Hmy & _).
  destruct (CandleFacts.myWith_scales _ _ _ _ _ Hmy) as (data' & Hfd' & Hxs & Hys & _).
  assert (data' = data) by congruence. subst data'.
  rewrite Hx in Hxs. rewrite Hy in Hys.
  do 4 eexists. split; [exact Hmy|]. split; [exact Hxs|]. split; [exact Hys|].
  cbn [D3.s_kind D3.s_range D3.s_domain D3.niceWith D3.scaleLinear D3.scaleTime].
  do 6 (split; [reflexivity|]).
  intros Hv.
  pose proof (D3Facts.min_spec (values data) low) as Hlo.
  pose proof (D3Facts.max_spec (values data) high) as Hhi.
  pose proof (D3Facts.min_spec (values data) date_of) as Hmn.
  pose proof (D3Facts.max_spec (values data) date_of) as Hmx.
  destruct (D3.min (values data) low) as [lo|]; [|now elim Hv].
  destruct (D3.max (values data) high) as [hi|]; [|now elim Hv].
  destruct (D3.min (values data) date_of) as [mn|]; [|now elim Hv].
  destruct (D3.max (values data) date_of) as [mx|]; [|now elim Hv].
  assert (Emn : exists z, mn = inject_Z z)
    by (destruct Hmn as [(d & _ & ->) _]; now exists (date d)).
  assert (Emx : exists z, mx = inject_Z z)
    by (destruct Hmx as [(d & _ & ->) _]; now exists (date d)).
  destruct Emn as [zmin ->]. destruct Emx as [zmax ->].
  exists lo, hi, zmin, zmax. do 4 (split; [assumption|]).
  split; [reflexivity|]. intros Hmin Hmax.
  f_equal; [exact (DateFacts.newDate_minus zmin 86400000 Hmin)|].
  f_equal. exact (DateFacts.newDate_plus zmax 86400000 Hmax).
Qed.

Lemma C2_scale_domains_witness :
  exists st' sel' xScale' yScale',
    myWith D3.nice_domain default [Samples.stockGroup] = Ok (st', sel') /\
    xScale st' = Some xScale' /\ yScale st' = Some yScale' /\
    D3.s_range yScale' = [Some 400; Some 0] /\
    D3.s_range xScale' = [Some 0; Some 400] /\
    D3.s_domain yScale' = [Some 0; Some 100] /\
    D3.s_domain xScale' = [Some (-86399000); Some 86403000].
Proof.
  destruct (C2_scale_domains D3.nice_domain default [Samples.stockGroup] Samples.stock)
    as (st' & sel' & xs & ys & Hmy & Hxs & Hys & _ & Hyr & Hyd & _ & Hxr & Hxd & _).
  - reflexivity.
  - repeat constructor; discriminate.
  - reflexivity.
  - reflexivity.
  - exists st', sel', xs, ys. do 3 (split; [assumption|]).
    split; [exact Hyr|]. split; [exact Hxr|]. split.
    + rewrite Hyd. vm_compute. reflexivity.
    + rewrite Hxd. vm_compute. reflexivity.
Defined.

(** C2 as stated fails.  For the sample series, with lows from 1 and
    highs up to 99, the default component computes the y domain [0, 100],
    not [1, 99].  And for a series dated at the last time a [Date] holds,
    the upper end of the x domain is no time at all (an Invalid Date), not
    that time plus 86400000 ms. *)
Lemma C2_counterexample :
  xScale default = None /\ yScale default = None /\
  D3.min (values Samples.stock) low = Some 1 /\
  D3.max (values Samples.stock) high = Some 99 /\
  (exists st' sel' yScale',
    my default [Samples.stockGroup] = Ok (st', sel') /\
    yScale st' = Some yScale' /\
    D3.s_domain yScale' = [Some 0; Some 100] /\
    ~ Forall2 num_eq (D3.s_domain yScale')
        [D3.min (values Samples.stock) low; D3.max (values Samples.stock) high]) /\
  D3.max (values Samples.lastDay) date_of = Some 8640000000000000 /\
  exists st' sel' xScale',
    my default [Samples.lastDayGroup] = Ok (st', sel') /\
    xScale st' = Some xScale' /\
    D3.s_domain xScale' = [Some 8639999913600000; None] /\
    ~ Forall2 num_eq (D3.s_domain xScale')
        [nsub (D3.min (values Samples.lastDay) date_of) (Some 86400000);
         nadd (D3.max (values Samples.lastDay) date_of) (Some 86400000)].
Proof.
  do 4 (split; [reflexivity|]). split; [|split; [reflexivity|]].
  - destruct (CandleFacts.my_spec default [Samples.stockGroup])
      as (d0 & st1 & xs & ys & cs & cs' & sel' & _ & _ & _ & _ & _ & Hmy & _).
    + discriminate.
    + repeat constructor; discriminate.
    + destruct (CandleFacts.my_scales _ _ _ _ Hmy) as (data & Hfd & _ & Hys & _).
      cbn [first_datum Samples.stockGroup g_datum] in Hfd.
      assert (data = Samples.stock) by congruence. subst data.
      cbn [yScale default] in Hys.
      eexists _, sel', _. split; [exact Hmy|]. split; [exact Hys|].
      cbn [D3.s_domain D3.nice D3.niceWith D3.scaleLinear].
      assert (E : D3.nice_domain [D3.min (values Samples.stock) low;
                                  D3.max (values Samples.stock) high]
                  = [Some 0; Some 100]) by (vm_compute; reflexivity).
      rewrite E. split; [reflexivity|].
      intros H. inversion H as [|? ? ? ? H1 _]; subst.
      vm_compute in H1. discriminate.
  - destruct (CandleFacts.my_spec default [Samples.lastDayGroup])
      as (d0 & st1 & xs & ys & cs & cs' & sel' & _ & _ & _ & _ & _ & Hmy & _).
    + discriminate.
    + repeat constructor; discriminate.
    + destruct (CandleFacts.my_scales _ _ _ _ Hmy) as (data & Hfd & Hxs & _).
      cbn [first_datum Samples.lastDayGroup g_datum] in Hfd.
      assert (data = Samples.lastDay) by congruence. subst data.
      cbn [xScale default] in Hxs.
      eexists _, sel', _. split; [exact Hmy|]. split; [exact Hxs|].
      cbn [D3.s_domain D3.scaleTime].
      assert (E : [newDate (nsub (D3.min (values Samples.lastDay) date_of)
                                 (Some 86400000));
                   newDate (nadd (D3.max (values Samples.lastDay) date_of)
                                 (Some 86400000))]
                  = [Some 8639999913600000; None]) by (vm_compute; reflexivity).
      rewrite E. split; [reflexivity|].
      intros H. inversion H as [|? ? ? ? _ H2]; subst.
      inversion H2 as [|? ? ? ? H3 _]; subst. exact H3.
Qed.



(** C4.  With a radial scale set, a render of a selection that is not
    empty succeeds and every node then shows one label per tick, in order
    ([ticks()] of a linear scale, [domain()] of a band scale): the text is
    the tick itself and the [startOffset] percentage of the [i]-th label
    is [(textScale(i) / 360) * 100], with [textScale] the linear scale
    from [[0, n]] to [radialScale.range()].  For the range [[0, 360]] this
    is [i * 100 / n]. *)
Theorem C4_label_offsets (D : Type) (st : CircularLabels.state)
        (sel : list (CircularLabels.node D)) (s : CircularLabels.radial) :
  sel <> [] -> CircularLabels.radialScale st = Some s ->
  let ticks :=
    match s with
    | CircularLabels.RadialLinear _ _ ticks => map CircularLabels.TNum ticks
    | CircularLabels.RadialBand domain _ => map CircularLabels.TStr domain
    end in
  let n := List.length ticks in
  let textScale :=
    D3.scaleLinear [Some 0; Some (CircularLabels.Q_of_nat n)]
                   (CircularLabels.range_of s) in
  exists st' sel' log,
    CircularLabels.my D st sel = Ok (st', sel', log) /\
    List.length sel' = List.length sel /\
    Forall
      (fun node =>
         exists labels,
           CircularLabels.n_labels node = Some labels /\
           map CircularLabels.t_text (CircularLabels.l_texts labels) = ticks /\
           forall i t,
             nth_error (CircularLabels.l_texts labels) i = Some t ->
             CircularLabels.t_startOffset t =
               nmul (ndiv (D3.s_call textScale (CircularLabels.Q_of_nat i))
                          (Some 360))
                    (Some 100) /\
             forall r0 r1,
               CircularLabels.range_of s = [Some r0; Some r1] ->
               r0 == 0 -> r1 == 360 ->
               num_eq (CircularLabels.t_startOffset t)
                      (Some (CircularLabels.Q_of_nat i * 100
                             / CircularLabels.Q_of_nat n)))
      sel'.
Proof.
  intros Hne Hs ticks n textScale.
  destruct (LabelFacts.my_shows D st sel s Hne Hs)
    as (st' & sel' & log & Hmy & Hl & Hsh).
  assert (Ht : fst (CircularLabels.tickData s) = ticks) by now destruct s.
  rewrite Ht in Hsh.
  exists st', sel', log. split; [exact Hmy|]. split; [exact Hl|].
  eapply Forall_impl; [|exact Hsh].
  intros node (labels & Hlab & Htext & Hoff).
  exists labels. split; [exact Hlab|].
  split; [now rewrite Htext, LabelFacts.textData_text|].
  intros i t Hi.
  pose proof (map_nth_error CircularLabels.t_startOffset _ _ Hi) as Hi'.
  rewrite Hoff in Hi'.
  destruct (LabelFacts.textData_offset _ _ _ _ Hi') as [Hlt Ho].
  split; [exact Ho|].
  intros r0 r1 Hr H0 H1. rewrite Ho, Hr.
  now apply LabelFacts.offset_full_circle.
Qed.

Lemma C4_label_offsets_witness :
  exists st' sel' log,
    CircularLabels.my nat
      (CircularLabels.mkState 400 300 (Some Samples.percentScale) None "start")
      [Samples.container] = Ok (st', sel', log) /\
    Forall
      (fun node =>
         exists labels,
           CircularLabels.n_labels node = Some labels /\
           map CircularLabels.t_text (CircularLabels.l_texts labels)
             = map CircularLabels.TNum [0; 10; 20; 30; 40; 50; 60; 70; 80; 90; 100] /\
           forall i t,
             nth_error (CircularLabels.l_texts labels) i = Some t ->
             num_eq (CircularLabels.t_startOffset t)
                    (Some (CircularLabels.Q_of_nat i * 100 / 11)))
      sel'.
Proof.
  destruct (C4_label_offsets nat
              (CircularLabels.mkState 400 300 (Some Samples.percentScale) None "start")
              [Samples.container] Samples.percentScale)
    as (st' & sel' & log & Hmy & _ & Hf).
  - discriminate.
  - reflexivity.
  - exists st', sel', log. split; [exact Hmy|].
    eapply Forall_impl; [|exact Hf].
    intros node (labels & Hlab & Htext & Hoff).
    exists labels. split; [exact Hlab|]. split; [exact Htext|].
    intros i t Hi. destruct (Hoff i t Hi) as [_ H].
    apply (H 0 360); reflexivity.
Defined.

(** C5, at the line chart.  Two renders of the same component with the
    same data array: the first converts the keys in the array, from
    seconds to milliseconds, and the second converts them again, so the x
    domain of the second render is a thousand times that of the first.
    Here it is [1000, 3000] and then [1000000, 3000000], whatever
    [dataParse] and the default colours are. *)
Theorem C5_second_render_differs
        (dataParse : list LineChart.series -> LineChart.sliced)
        (categorical3 : list string) :
  exists st1 data1 st2 data2 xScale1 xScale2,
    LineChart.render dataParse (LineChart.default categorical3) Samples.visits
      = Ok (st1, data1) /\
    LineChart.render dataParse st1 data1 = Ok (st2, data2) /\
    LineChart.xScale st1 = Some xScale1 /\
    LineChart.xScale st2 = Some xScale2 /\
    D3.s_domain xScale1 = [Some 1000; Some 3000] /\
    D3.s_domain xScale2 = [Some 1000000; Some 3000000] /\
    data1 <> Samples.visits /\
    D3.s_domain xScale2 <> D3.s_domain xScale1.
Proof.
  do 6 eexists. split; [reflexivity|]. split; [reflexivity|].
  split; [reflexivity|]. split; [reflexivity|].
  split; [reflexivity|]. split; [reflexivity|].
  split; discriminate.
Qed.

(** C6, at [my.dispatch].  The setter stores the dispatcher and returns
    the component, but a call without arguments does not return what is
    stored: it evaluates [dispatch()], a call of the dispatch object, and
    so throws the host's [TypeError], in candleSticks and in the line
    chart, in every state. *)
Theorem C6_dispatch_getter_throws
        (st : state) (lst : LineChart.state) (v : D3.dispatch) :
  my_dispatch st (Some v) = Ok (set_dispatch v st, Component) /\
  dispatch (set_dispatch v st) = v /\
  my_dispatch (set_dispatch v st) None = Threw HostTypeError /\
  my_dispatch default None = Threw HostTypeError /\
  LineChart.my_dispatch lst (Some v) = Ok (LineChart.set_dispatch v lst, Component) /\
  LineChart.my_dispatch (LineChart.set_dispatch v lst) None = Threw HostTypeError.
Proof. repeat split. Qed.




(** C9.  While a colour scale is set, as it is from construction on, a
    call of the colours setter stores the new colours, which the getter
    then returns, and changes nothing a later render draws: the render
    gives the same DOM and the same closure state, the stored colours
    apart, as it gives without the call. *)
Theorem C9_colors_setter (st : state) (newColors : list string) (sel : selection) :
  colorScale st <> None ->
  my_colors st (Some newColors) = Ok (set_colors newColors st, Component) /\
  my_colors (set_colors newColors st) None
    = Ok (set_colors newColors st, Value newColors) /\
  colorScale (set_colors newColors st) = colorScale st /\
  my (set_colors newColors st) sel =
    match my st sel with
    | Ok (st', sel') => Ok (set_colors newColors st', sel')
    | Threw e => Threw e
    end.
Proof.
  intros Hcs. repeat split. now apply CandleFacts.my_colors_commute.
Qed.

Lemma C9_colors_setter_witness :
  colorScale (set_colors ["blue"; "orange"]%string default) = colorScale default /\
  exists st' sel',
    my default [Samples.stockGroup] = Ok (st', sel') /\
    my (set_colors ["blue"; "orange"]%string default) [Samples.stockGroup]
      = Ok (set_colors ["blue"; "orange"]%string st', sel').
Proof.
  destruct (C9_colors_setter default ["blue"; "orange"]%string [Samples.stockGroup])
    as (_ & _ & Hsame & Hmy).
  - discriminate.
  - split; [exact Hsame|].
    destruct (CandleFacts.my_spec default [Samples.stockGroup])
      as (d0 & st1 & xs & ys & cs & cs' & sel' & _ & _ & _ & _ & _ & Hok & _).
    + discriminate.
    + repeat constructor; discriminate.
    + rewrite Hok in Hmy. eexists _, sel'. split; [exact Hok | exact Hmy].
Defined.




(** * Further properties of the components *)

Import CandleSticks Layout.

(** X1.  After a render, a series group has as many candle groups as
    it had or as its series has values, whichever is more: none is ever
    removed.  The first ones are bound to the values in order, those
    beyond the values are the old ones untouched, and no candle group
    that was there before has its fill or stroke changed. *)
Theorem X1_candles_bound_kept (st : state) (sel : selection) :
  sel <> [] -> Forall has_datum sel ->
  exists st' sel',
    my st sel = Ok (st', sel') /\
    Forall2
      (fun g g' =>
         exists d,
           g_datum g = Some d /\ g_datum g' = Some d /\
           g_id g' = Some (key d) /\
           List.length (g_candles g')
             = Nat.max (List.length (g_candles g)) (List.length (values d)) /\
           map c_datum (firstn (List.length (values d)) (g_candles g'))
             = values d /\
           skipn (List.length (values d)) (g_candles g')
             = skipn (List.length (values d)) (g_candles g) /\
           map (fun c => (c_fill c, c_stroke c))
               (firstn (List.length (g_candles g)) (g_candles g'))
             = map (fun c => (c_fill c, c_stroke c)) (g_candles g))
      sel sel'.
Proof.
  intros Hne Hall.
  destruct (CandleFacts.my_spec st sel Hne Hall)
    as (d0 & st1 & xs & ys & cs & cs' & sel' & _ & _ & Hx & Hy & _ & Hmy & _).
  eexists _, sel'. split; [exact Hmy|].
  apply (CandleMore.my_Forall2 _ _ _ _ _ Hmy).
  intros st0 g st2 g' Ex Ey _ _ Hc Hr.
  cbn [xScale yScale set_colorScale] in Ex, Ey. rewrite Hx in Ex. rewrite Hy in Ey.
  destruct (CandleMore.renderGroup_layout st0 g st2 g')
    as (d & Hd & Hd' & Hid & _ & Hlen & Hdat & Hexit & _ & Hcol);
    trivial; try (rewrite ?Ex, ?Ey; discriminate).
  exists d. repeat split; assumption.
Qed.

Lemma X1_candles_bound_kept_witness :
  exists st' sel',
    my default [Samples.stockGroup] = Ok (st', sel') /\
    Forall (fun g' => map c_datum (g_candles g') = values Samples.stock) sel'.
Proof.
  destruct (X1_candles_bound_kept default [Samples.stockGroup])
    as (st' & sel' & Hmy & Hf).
  - discriminate.
  - repeat constructor; discriminate.
  - exists st', sel'. split; [exact Hmy|].
    inversion Hf as [|g g' l l' (d & Hd & _ & _ & Hlen & Hdat & _) Hnil]; subst.
    inversion Hnil; subst. constructor; [|constructor].
    injection Hd as <-.
    assert (Hl : List.length (g_candles g') = List.length (values Samples.stock))
      by (rewrite Hlen; reflexivity).
    rewrite <- Hl, firstn_all in Hdat. exact Hdat.
Defined.

(** X3.  Rendering again what a render left changes nothing: the same
    closure state and the same DOM come back. *)
Theorem X3_render_idempotent (st : state) (sel : selection) :
  sel <> [] -> Forall has_datum sel ->
  exists st' sel',
    my st sel = Ok (st', sel') /\
    my st' sel' = Ok (st', sel').
Proof.
  intros Hne Hall.
  destruct (CandleFacts.my_spec st sel Hne Hall)
    as (d0 & st1 & xs & ys & cs & cs' & sel' & Hfd & Hin & Hx & Hy & _ & Hmy & _).
  eexists _, sel'. split; [exact Hmy|].
  assert (Hf : Forall2 (fun g g' => g_datum g' = g_datum g /\
                                    settledGroup (classed st) g') sel sel').
  { apply (CandleMore.my_Forall2 _ _ _ _ _ Hmy).
    intros st0 g st2 g' Ex Ey _ Hcl Hc Hr.
    cbn [xScale yScale set_colorScale] in Ex, Ey. rewrite Hx in Ex. rewrite Hy in Ey.
    rewrite <- Hcl. apply (CandleMore.renderGroup_settles st0 g st2 g'); trivial;
      rewrite ?Ex, ?Ey; discriminate. }
  assert (Hcl1 : classed st1 = classed st)
    by (unfold init, initWith in Hin; now injection Hin as <-).
  unfold my at 1. unfold myWith.
  assert (Hfd' : first_datum sel' = Some d0).
  { destruct Hf as [|g g' l l' [Hd _] _]; [discriminate|]. simpl in *. congruence. }
  rewrite Hfd'.
  rewrite (CandleMore.init_fixed _ d0 xs ys cs'); trivial. cbn [JS.bind].
  apply (CandleMore.each_settled sel' _ xs ys cs'); trivial.
  cbn [classed set_colorScale]. rewrite Hcl1.
  clear - Hf. induction Hf as [|g g' l l' [_ H] _ IH]; constructor; trivial.
Qed.

Lemma X3_render_idempotent_witness :
  exists st' sel',
    my default [Samples.stockGroup] = Ok (st', sel') /\
    my st' sel' = Ok (st', sel').
Proof.
  apply (X3_render_idempotent default [Samples.stockGroup]).
  - discriminate.
  - repeat constructor; discriminate.
Defined.

(** X2.  Every candle group a render creates has a high-low line of two
    points on one vertical, [x = xScale(d.date)], from [yScale(d.high)]
    to [yScale(d.low)].  With a decreasing [yScale] and a datum whose
    open and close lie between its low and its high, the bar of the
    candle lies on the line: it starts no higher than the high end and
    ends no lower than the low end. *)
Theorem X2_high_low_line (st : state) (sel : selection) :
  sel <> [] -> Forall has_datum sel ->
  exists st' sel' xScale' yScale',
    my st sel = Ok (st', sel') /\
    xScale st' = Some xScale' /\ yScale st' = Some yScale' /\
    Forall2
      (fun g g' =>
         exists d,
           g_datum g = Some d /\
           map c_datum (created g g') = join_enter (g_candles g) (values d) /\
           Forall
             (fun c =>
                let d := c_datum c in
                exists top bottom bar,
                  c_highLow c = Some [top; bottom] /\
                  c_bar c = Some bar /\
                  px top = D3.s_call xScale' (date_of d) /\
                  px bottom = px top /\
                  py top = D3.s_call yScale' (high d) /\
                  py bottom = D3.s_call yScale' (low d) /\
                  (decreasing (D3.s_call yScale') ->
                   low d <= open d -> low d <= close d ->
                   open d <= high d -> close d <= high d ->
                   exists yt yb y h,
                     py top = Some yt /\ py bottom = Some yb /\
                     r_y bar = Some y /\ r_height bar = Some h /\
                     yt <= y /\ 0 <= h /\ y + h <= yb))
             (created g g'))
      sel sel'.
Proof.
  intros Hne Hall.
  destruct (CandleFacts.my_spec st sel Hne Hall)
    as (d0 & st1 & xs & ys & cs & cs' & sel' & _ & _ & Hx & Hy & _ & Hmy & _ & _ & Hf).
  exists (set_colorScale (Some cs') st1), sel', xs, ys.
  split; [exact Hmy|]. split; [exact Hx|]. split; [exact Hy|].
  eapply Forall2_impl; [|exact Hf]. intros g g' Hdr.
  destruct (CandleFacts.drawn_candles _ _ _ _ _ _ Hdr) as (d & Hd & Hmap & Hall').
  exists d. split; [exact Hd|]. split; [exact Hmap|].
  eapply Forall_impl; [|exact Hall']. cbv zeta.
  intros c (_ & _ & Hline & Hbar). do 3 eexists.
  split; [exact Hline|]. split; [exact Hbar|].
  cbn [px py]. do 4 (split; [reflexivity|]).
  intros Hdec Hlo Hlc Hoh Hch.
  destruct (CandleMore.decreasing_total _ (high (c_datum c)) Hdec) as [yh Eh].
  destruct (CandleMore.decreasing_total _ (low (c_datum c)) Hdec) as [yl El].
  destruct (CandleMore.decreasing_total _ (open (c_datum c)) Hdec) as [yo Eo].
  destruct (CandleMore.decreasing_total _ (close (c_datum c)) Hdec) as [yc Ec].
  pose proof (CandleMore.decreasing_le _ _ _ _ _ Hdec Hlo El Eo) as H1.
  pose proof (CandleMore.decreasing_le _ _ _ _ _ Hdec Hlc El Ec) as H2.
  pose proof (CandleMore.decreasing_le _ _ _ _ _ Hdec Hoh Eo Eh) as H3.
  pose proof (CandleMore.decreasing_le _ _ _ _ _ Hdec Hch Ec Eh) as H4.
  unfold openCloseRect. cbn [r_y r_height]. rewrite Eh, El, Eo, Ec.
  destruct (isUpDay (c_datum c)) eqn:Hup; cbn [nsub lift2].
  - apply gt_true_iff in Hup.
    pose proof (CandleMore.decreasing_le _ _ _ _ _ Hdec (Qlt_le_weak _ _ Hup) Eo Ec).
    do 4 eexists. do 4 (split; [reflexivity|]). repeat split; lra.
  - apply gt_false_iff in Hup.
    pose proof (CandleMore.decreasing_le _ _ _ _ _ Hdec Hup Ec Eo).
    do 4 eexists. do 4 (split; [reflexivity|]). repeat split; lra.
Qed.

Lemma X2_high_low_line_witness :
  exists st' sel',
    my default [Samples.stockGroup] = Ok (st', sel') /\
    Forall (fun g' =>
              Forall (fun c => exists top bottom,
                          c_highLow c = Some [top; bottom] /\
                          px bottom = px top)
                     (g_candles g'))
           sel'.
Proof.
  destruct (X2_high_low_line default [Samples.stockGroup])
    as (st' & sel' & xs & ys & Hmy & _ & _ & Hf).
  - discriminate.
  - repeat constructor; discriminate.
  - exists st', sel'. split; [exact Hmy|].
    inversion Hf as [|g g' l l' (d & _ & _ & Hc) Hnil]; subst.
    inversion Hnil; subst. constructor; [|constructor].
    unfold created in Hc. cbn [Samples.stockGroup g_candles List.length skipn] in Hc.
    eapply Forall_impl; [|exact Hc]. cbv zeta.
    intros c (top & bottom & bar & Hl & _ & _ & Hx & _). now exists top, bottom.
Defined.

(** X4.  The scales a render leaves in the closure are the scales of
    every later render, whatever it draws: they are not computed again
    from the new data. *)
Theorem X4_scales_survive (st : state) (sel sel2 : selection) :
  sel <> [] -> Forall has_datum sel ->
  sel2 <> [] -> Forall has_datum sel2 ->
  exists st1 sel1 st2 sel2',
    my st sel = Ok (st1, sel1) /\
    my st1 sel2 = Ok (st2, sel2') /\
    xScale st1 <> None /\ yScale st1 <> None /\
    xScale st2 = xScale st1 /\ yScale st2 = yScale st1.
Proof.
  intros Hne Hall Hne2 Hall2.
  destruct (CandleFacts.my_spec st sel Hne Hall)
    as (d0 & st0 & xs & ys & cs & cs' & sel1 & _ & _ & Hx & Hy & _ & Hmy & _).
  set (st1 := set_colorScale (Some cs') st0) in *.
  destruct (CandleFacts.my_spec st1 sel2 Hne2 Hall2)
    as (d1 & st0' & xs' & ys' & cs2 & cs2' & sel2' & _ & _ & _ & _ & _ & Hmy2 & _).
  destruct (CandleFacts.my_scales _ _ _ _ Hmy2) as (data & _ & Hx2 & Hy2 & _).
  assert (Ex : xScale st1 = Some xs) by exact Hx.
  assert (Ey : yScale st1 = Some ys) by exact Hy.
  rewrite Ex in Hx2. rewrite Ey in Hy2.
  do 4 eexists. split; [exact Hmy|]. split; [exact Hmy2|].
  split; [rewrite Ex; discriminate|]. split; [rewrite Ey; discriminate|].
  split; congruence.
Qed.

Lemma X4_scales_survive_witness :
  exists st1 sel1 st2 sel2',
    my default [Samples.stockGroup] = Ok (st1, sel1) /\
    my st1 [Samples.spikeGroup] = Ok (st2, sel2') /\
    yScale st2 = yScale st1 /\
    option_map D3.s_domain (yScale st1) = Some [Some 0; Some 100].
Proof.
  destruct (X4_scales_survive default [Samples.stockGroup] [Samples.spikeGroup])
    as (st1 & sel1 & st2 & sel2' & H1 & H2 & _ & _ & _ & Hy).
  - discriminate.
  - repeat constructor; discriminate.
  - discriminate.
  - repeat constructor; discriminate.
  - exists st1, sel1, st2, sel2'. do 3 (split; [assumption|]).
    destruct (CandleFacts.my_scales _ _ _ _ H1) as (data & Hd & _ & Hy1 & _).
    cbn [first_datum Samples.stockGroup g_datum] in Hd. injection Hd as <-.
    rewrite Hy1. vm_compute. reflexivity.
Defined.

(** X5.  The scales a render builds come from the first group's series
    alone: the other groups of the selection are drawn with them and add
    nothing to the domains. *)
Theorem X5_scales_from_first_group (st : state) (g : seriesNode) (rest : selection) :
  has_datum g -> Forall has_datum rest ->
  exists stA selA stB selB,
    my st (g :: rest) = Ok (stA, selA) /\
    my st [g] = Ok (stB, selB) /\
    xScale stA = xScale stB /\ yScale stA = yScale stB.
Proof.
  intros Hg Hrest.
  destruct (CandleFacts.my_spec st (g :: rest))
    as (d0 & st0 & xs & ys & cs & cs' & selA & _ & _ & _ & _ & _ & HA & _);
    [discriminate | now constructor |].
  destruct (CandleFacts.my_spec st [g])
    as (d1 & st1 & xs1 & ys1 & cs1 & cs1' & selB & _ & _ & _ & _ & _ & HB & _);
    [discriminate | now repeat constructor |].
  destruct (CandleFacts.my_scales _ _ _ _ HA) as (dA & HdA & HxA & HyA & _).
  destruct (CandleFacts.my_scales _ _ _ _ HB) as (dB & HdB & HxB & HyB & _).
  cbn [first_datum] in HdA, HdB. assert (dA = dB) by congruence. subst dB.
  do 4 eexists. split; [exact HA|]. split; [exact HB|].
  split; congruence.
Qed.

Lemma X5_scales_from_first_group_witness :
  exists stA selA stB selB,
    my default [Samples.stockGroup; Samples.spikeGroup] = Ok (stA, selA) /\
    my default [Samples.stockGroup] = Ok (stB, selB) /\
    xScale stA = xScale stB /\ yScale stA = yScale stB.
Proof.
  apply (X5_scales_from_first_group default Samples.stockGroup [Samples.spikeGroup]).
  - discriminate.
  - repeat constructor; discriminate.
Defined.

(** X6.  After a first render, when both scales are in the closure,
    [width] and [height] still store their argument but no longer reach
    any render: a render after [width(w)] and [height(h)] gives the DOM
    and the closure state it gives without them, the two stored numbers
    apart. *)
Theorem X6_size_after_first_render (st : state) (sel : selection) :
  sel <> [] -> Forall has_datum sel ->
  exists st1 sel1,
    my st sel = Ok (st1, sel1) /\
    forall w h sel2,
      my_height st1 (Some h) = Ok (set_height h st1, Component) /\
      my_width (set_height h st1) (Some w)
        = Ok (set_width w (set_height h st1), Component) /\
      my (set_width w (set_height h st1)) sel2 =
        match my st1 sel2 with
        | Ok (st2, sel2') => Ok (set_width w (set_height h st2), sel2')
        | Threw e => Threw e
        end.
Proof.
  intros Hne Hall.
  destruct (CandleFacts.my_spec st sel Hne Hall)
    as (d0 & st0 & xs & ys & cs & cs' & sel1 & _ & _ & Hx & Hy & _ & Hmy & _).
  do 2 eexists. split; [exact Hmy|]. intros w h sel2.
  split; [reflexivity|]. split; [reflexivity|].
  apply CandleMore.my_size_commute; cbn [xScale yScale set_colorScale];
    rewrite ?Hx, ?Hy; discriminate.
Qed.

Lemma X6_size_after_first_render_witness :
  exists st1 sel1 st2 sel2,
    my default [Samples.stockGroup] = Ok (st1, sel1) /\
    my st1 [Samples.spikeGroup] = Ok (st2, sel2) /\
    my (set_width 800 (set_height 600 st1)) [Samples.spikeGroup]
      = Ok (set_width 800 (set_height 600 st2), sel2).
Proof.
  destruct (X6_size_after_first_render default [Samples.stockGroup])
    as (st1 & sel1 & H1 & H).
  - discriminate.
  - repeat constructor; discriminate.
  - destruct (CandleFacts.my_spec st1 [Samples.spikeGroup])
      as (d0 & st0 & xs & ys & cs & cs' & sel2 & _ & _ & _ & _ & _ & H2 & _).
    + discriminate.
    + repeat constructor; discriminate.
    + destruct (H 800 600 [Samples.spikeGroup]) as (_ & _ & H3).
      rewrite H2 in H3. do 4 eexists. split; [exact H1|]. split; [exact H2 | exact H3].
Defined.

(** X7.  Scales set through [my.xScale] and [my.yScale] are used as they
    are: the render keeps them in the closure and draws every candle
    group it creates with them, the data having no part in them. *)
Theorem X7_given_scales_used
        (st : state) (xs ys : D3.scale) (sel : selection) :
  sel <> [] -> Forall has_datum sel ->
  exists stx sty st' sel',
    my_xScale st (Some (Some xs)) = Ok (stx, Component) /\
    my_yScale stx (Some (Some ys)) = Ok (sty, Component) /\
    my sty sel = Ok (st', sel') /\
    xScale st' = Some xs /\ yScale st' = Some ys /\
    Forall2
      (fun g g' =>
         Forall
           (fun c =>
              c_highLow c = Some (highLowPoints xs ys (c_datum c)) /\
              c_bar c = Some (openCloseRect xs ys (candleWidth st) (c_datum c)))
           (created g g'))
      sel sel'.
Proof.
  intros Hne Hall.
  set (sty := set_yScale (Some ys) (set_xScale (Some xs) st)).
  destruct (CandleFacts.my_spec sty sel Hne Hall)
    as (d0 & st1 & xs' & ys' & cs & cs' & sel' & _ & Hin & Hx & Hy & _ & Hmy & _ & _ & Hf).
  unfold init, initWith in Hin. injection Hin as <-. cbn in Hx, Hy.
  injection Hx as <-. injection Hy as <-.
  do 4 eexists. split; [reflexivity|]. split; [reflexivity|].
  split; [exact Hmy|]. split; [reflexivity|]. split; [reflexivity|].
  eapply Forall2_impl; [|exact Hf]. intros g g' Hdr.
  destruct (CandleFacts.drawn_candles _ _ _ _ _ _ Hdr) as (d & _ & _ & Hall').
  eapply Forall_impl; [|exact Hall']. intros c (_ & _ & H1 & H2). now split.
Qed.

Lemma X7_given_scales_used_witness :
  exists st' sel',
    my (set_yScale (Some Samples.chartY) (set_xScale (Some Samples.chartX) default))
       [Samples.stockGroup] = Ok (st', sel') /\
    xScale st' = Some Samples.chartX /\ yScale st' = Some Samples.chartY.
Proof.
  destruct (X7_given_scales_used default Samples.chartX Samples.chartY
              [Samples.stockGroup])
    as (stx & sty & st' & sel' & Hsx & Hsy & Hmy & Hx & Hy & _).
  - discriminate.
  - repeat constructor; discriminate.
  - cbn [my_xScale] in Hsx. injection Hsx as <-.
    cbn [my_yScale] in Hsy. injection Hsy as <-.
    exists st', sel'. split; [exact Hmy|]. now split.
Defined.

(** X8.  A circularLabels render changes one closure variable, the
    radius: an unset radius becomes half the smaller of width and height
    and a set one stays, so that after the first render width and height
    no longer change it.  Every node then has its labels group with a
    [def]; the path of a [def] that was there keeps the radius it was
    drawn with, a new one has the radius of the render. *)
Theorem X8_radius_default_kept
        (D : Type) (st : CircularLabels.state)
        (sel : list (CircularLabels.node D)) (s : CircularLabels.radial) :
  sel <> [] -> CircularLabels.radialScale st = Some s ->
  exists st' sel' log,
    CircularLabels.my D st sel = Ok (st', sel', log) /\
    st' = CircularLabels.mkState (CircularLabels.width st) (CircularLabels.height st)
            (Some s) (Some (renderRadius st)) (CircularLabels.textAnchor st) /\
    (forall w h,
        renderRadius
          (CircularLabels.mkState w h (CircularLabels.radialScale st')
             (CircularLabels.radius st') (CircularLabels.textAnchor st'))
        = renderRadius st) /\
    Forall2
      (fun n n' =>
         CircularLabels.n_datum n' = CircularLabels.n_datum n /\
         exists labels def,
           CircularLabels.n_labels n' = Some labels /\
           CircularLabels.l_def labels = Some def /\
           CircularLabels.def_path_d def = pathRadius (renderRadius st) n)
      sel sel'.
Proof.
  intros Hne Hs.
  set (r := renderRadius st).
  set (stR := CircularLabels.mkState (CircularLabels.width st)
                (CircularLabels.height st) (Some s) (Some r)
                (CircularLabels.textAnchor st)).
  set (R := fun n n' : CircularLabels.node D =>
              CircularLabels.n_datum n' = CircularLabels.n_datum n /\
              exists labels def,
                CircularLabels.n_labels n' = Some labels /\
                CircularLabels.l_def labels = Some def /\
                CircularLabels.def_path_d def = pathRadius r n).
  destruct (LabelMore.my_invariant D
              (fun st' sel' => st' = stR /\ Forall2 R sel sel') st sel s Hne Hs)
    as (st' & sel' & log & Hmy & -> & HF).
  - intros st' sel' log Hb. rewrite (LabelMore.body_eq D st sel s Hs) in Hb.
    injection Hb as <- <- _. split; [|reflexivity]. split; [reflexivity|].
    apply LabelMore.Forall2_map_self. intros n. unfold R. split; [reflexivity|].
    unfold CircularLabels.drawTexts, CircularLabels.appendLabels, pathRadius.
    fold r. cbn. destruct (CircularLabels.n_labels n) as [labels|]; cbn.
    + destruct (CircularLabels.l_def labels); do 2 eexists; repeat split.
    + do 2 eexists; repeat split.
  - intros st1 sel1 st2 sel2 log [-> HF] _ Hb.
    rewrite (LabelMore.body_eq D stR sel1 s eq_refl) in Hb.
    injection Hb as <- <- _. split; [|reflexivity]. split; [reflexivity|].
    apply LabelMore.Forall2_map_r; [|exact HF].
    intros a b [Hd (labels & def & Hl & Hdef & Hp)]. split; [exact Hd|].
    unfold CircularLabels.drawTexts, CircularLabels.appendLabels. cbn.
    rewrite Hl. cbn. rewrite Hdef. cbn. do 2 eexists. repeat split. exact Hp.
  - exists stR, sel', log. split; [exact Hmy|]. split; [reflexivity|].
    split; [reflexivity | exact HF].
Qed.

Lemma X8_radius_default_kept_witness :
  exists st' sel' log,
    CircularLabels.my nat
      (CircularLabels.mkState 400 300 (Some Samples.percentScale) None "start")
      [Samples.container] = Ok (st', sel', log) /\
    CircularLabels.radius st' = Some (300 / 2).
Proof.
  destruct (X8_radius_default_kept nat
              (CircularLabels.mkState 400 300 (Some Samples.percentScale) None "start")
              [Samples.container] Samples.percentScale)
    as (st' & sel' & log & Hmy & -> & _).
  - discriminate.
  - reflexivity.
  - do 3 eexists. split; [exact Hmy | reflexivity].
Defined.

(** X9.  The [text-anchor] style is set where a label is appended: after
    a render the labels that were there keep the anchor they had, and
    only the labels added have the anchor of the component. *)
Theorem X9_anchor_of_new_labels
        (D : Type) (st : CircularLabels.state)
        (sel : list (CircularLabels.node D)) (s : CircularLabels.radial) :
  sel <> [] -> CircularLabels.radialScale st = Some s ->
  let n := List.length (fst (CircularLabels.tickData s)) in
  exists st' sel' log,
    CircularLabels.my D st sel = Ok (st', sel', log) /\
    Forall2
      (fun node node' =>
         exists labels,
           CircularLabels.n_labels node' = Some labels /\
           List.length (CircularLabels.l_texts labels) = n /\
           map CircularLabels.t_anchor (CircularLabels.l_texts labels)
             = (firstn n (map CircularLabels.t_anchor (textsOf node))
                  ++ repeat (CircularLabels.textAnchor st)
                            (n - List.length (textsOf node)))%list)
      sel sel'.
Proof.
  intros Hne Hs n.
  set (a := CircularLabels.textAnchor st).
  set (data := CircularLabels.textData s (fst (CircularLabels.tickData s))).
  assert (Hdata : List.length data = n) by apply LabelMore.textData_length.
  set (R := fun node node' : CircularLabels.node D =>
              exists labels,
                CircularLabels.n_labels node' = Some labels /\
                List.length (CircularLabels.l_texts labels) = n /\
                map CircularLabels.t_anchor (CircularLabels.l_texts labels)
                  = (firstn n (map CircularLabels.t_anchor (textsOf node))
                       ++ repeat a (n - List.length (textsOf node)))%list).
  destruct (LabelMore.my_invariant D
              (fun st' sel' => CircularLabels.textAnchor st' = a /\ Forall2 R sel sel')
              st sel s Hne Hs)
    as (st' & sel' & log & Hmy & _ & HF).
  - intros st' sel' log Hb. rewrite (LabelMore.body_eq D st sel s Hs) in Hb.
    injection Hb as <- <- _. split; [|reflexivity]. split; [reflexivity|].
    apply LabelMore.Forall2_map_self. intros node. unfold R.
    unfold CircularLabels.drawTexts, CircularLabels.appendLabels, textsOf.
    fold a data. cbn.
    destruct (CircularLabels.n_labels node) as [labels|]; cbn;
      eexists; (split; [reflexivity|]); cbn;
      rewrite LabelMore.joinTexts_length, LabelMore.joinTexts_anchors, Hdata;
      split; reflexivity.
  - intros st1 sel1 st2 sel2 log [Ha HF] Hs1 Hb.
    rewrite (LabelMore.body_eq D st1 sel1 s Hs1) in Hb.
    injection Hb as <- <- _. split; [|reflexivity]. split; [exact Ha|].
    apply LabelMore.Forall2_map_r; [|exact HF].
    intros n0 b (labels & Hl & Hlen & Hanc). unfold R.
    unfold CircularLabels.drawTexts, CircularLabels.appendLabels. cbn.
    rewrite Hl. cbn. fold data. eexists. split; [reflexivity|]. cbn.
    rewrite LabelMore.joinTexts_length, LabelMore.joinTexts_anchors, Hdata, Hlen.
    split; [reflexivity|].
    rewrite Nat.sub_diag. cbn [repeat]. rewrite app_nil_r, <- Hanc.
    apply firstn_all2. rewrite length_map. lia.
  - exists st', sel', log. split; [exact Hmy | exact HF].
Qed.

Lemma X9_anchor_of_new_labels_witness :
  exists st' sel' log,
    CircularLabels.my nat
      (CircularLabels.mkState 400 300 (Some Samples.seasonScale) None "middle")
      [Samples.container] = Ok (st', sel', log) /\
    Forall
      (fun node' =>
         exists labels,
           CircularLabels.n_labels node' = Some labels /\
           map CircularLabels.t_anchor (CircularLabels.l_texts labels)
             = ["middle"; "middle"; "middle"; "middle"]%string)
      sel'.
Proof.
  destruct (X9_anchor_of_new_labels nat
              (CircularLabels.mkState 400 300 (Some Samples.seasonScale) None "middle")
              [Samples.container] Samples.seasonScale)
    as (st' & sel' & log & Hmy & HF).
  - discriminate.
  - reflexivity.
  - exists st', sel', log. split; [exact Hmy|].
    inversion HF as [|n n' l l' (labels & Hl & _ & Ha) Hnil]; subst.
    inversion Hnil; subst. constructor; [|constructor].
    exists labels. split; [exact Hl | exact Ha].
Defined.

(** X10.  A render writes to the console once for every node of the
    selection when the radial scale is linear: the least and the greatest
    value of its domain and the [newtick] list, which has one entry per
    tick.  With a band scale it writes nothing. *)
Theorem X10_console_output
        (D : Type) (st : CircularLabels.state)
        (sel : list (CircularLabels.node D)) (s : CircularLabels.radial) :
  CircularLabels.radialScale st = Some s ->
  exists st' sel' log,
    CircularLabels.my D st sel = Ok (st', sel', log) /\
    match s with
    | CircularLabels.RadialBand _ _ => log = []
    | CircularLabels.RadialLinear domain _ ticks =>
        exists newtick,
          List.length newtick = List.length ticks /\
          log = List.concat
                  (repeat [CircularLabels.LogNum (D3.min domain (fun d => d));
                           CircularLabels.LogNum (D3.max domain (fun d => d));
                           CircularLabels.LogTicks newtick]
                          (List.length sel)) /\
          List.length log = (3 * List.length sel)%nat
    end.
Proof.
  intros Hs.
  destruct (LabelFacts.labels_ok D st sel) as [[[st' sel'] log] Hmy];
    [right; rewrite Hs; discriminate|].
  exists st', sel', log. split; [exact Hmy|].
  pose proof (LabelMore.each_log D _ _ _ _ s _ _ _ Hs Hmy) as Hlog.
  cbn [app] in Hlog. destruct s as [domain range ticks|domain range].
  - cbn [CircularLabels.tickData snd] in Hlog. eexists. split; [|split; [exact Hlog|]].
    + unfold CircularLabels.newtick. now rewrite length_map, length_seq.
    + rewrite Hlog. clear. induction (List.length sel) as [|k IH]; simpl; [reflexivity|].
      rewrite IH. lia.
  - cbn [CircularLabels.tickData snd] in Hlog. rewrite Hlog. clear.
    induction (List.length sel) as [|k IH]; simpl; [reflexivity | exact IH].
Qed.

Lemma X10_console_output_witness :
  exists st' sel' log,
    CircularLabels.my nat
      (CircularLabels.mkState 400 300 (Some Samples.percentScale) None "start")
      [Samples.container; Samples.container] = Ok (st', sel', log) /\
    List.length log = 6%nat.
Proof.
  destruct (X10_console_output nat
              (CircularLabels.mkState 400 300 (Some Samples.percentScale) None "start")
              [Samples.container; Samples.container] Samples.percentScale)
    as (st' & sel' & log & Hmy & H).
  - reflexivity.
  - exists st', sel', log. split; [exact Hmy|].
    cbn in H. destruct H as (nt & _ & _ & Hlen). exact Hlen.
Defined.

(** X11.  Passing [undefined] to [my.xScale] and [my.yScale] makes the
    next render build both scales again, from the data it is given and
    the width and height then stored, whatever scales were there: the x
    domain from the dates [new Date(min date - 86400000)] and
    [new Date(max date + 86400000)], the y domain as [nice()] makes it of
    [[min low, max high]], whatever its computation [niceDomain]. *)
Theorem X11_reset_scales (niceDomain : list num -> list num)
        (st : state) (sel : selection) (data : series) :
  first_datum sel = Some data -> Forall has_datum sel ->
  exists stx sty st' sel' xScale' yScale',
    my_xScale st (Some None) = Ok (stx, Component) /\
    my_yScale stx (Some None) = Ok (sty, Component) /\
    myWith niceDomain sty sel = Ok (st', sel') /\
    xScale st' = Some xScale' /\ yScale st' = Some yScale' /\
    D3.s_domain xScale' =
      [newDate (nsub (D3.min (values data) date_of) (Some 86400000));
       newDate (nadd (D3.max (values data) date_of) (Some 86400000))] /\
    D3.s_range xScale' = [Some 0; Some (width st)] /\
    D3.s_domain yScale' =
      niceDomain [D3.min (values data) low; D3.max (values data) high] /\
    D3.s_range yScale' = [Some (height st); Some 0].
Proof.
  intros Hfd Hall.
  assert (Hne : sel <> []) by (intros ->; discriminate).
  set (sty := set_yScale None (set_xScale None st)).
  destruct (CandleFacts.myWith_spec niceDomain sty sel Hne Hall)
    as (d0 & st1 & xs & ys & cs & cs' & sel' & _ & _ & _ & _ & _ & Hmy & _).
  destruct (CandleFacts.myWith_scales _ _ _ _ _ Hmy) as (data' & Hfd' & Hx & Hy & _).
  assert (data' = data) by congruence. subst data'.
  do 6 eexists. split; [reflexivity|]. split; [reflexivity|].
  split; [exact Hmy|]. split; [exact Hx|]. split; [exact Hy|].
  repeat split.
Qed.

Lemma X11_reset_scales_witness :
  exists st' sel',
    myWith D3.nice_domain
       (set_yScale None (set_xScale None Samples.chartState))
       [Samples.spikeGroup] = Ok (st', sel') /\
    option_map D3.s_domain (xScale st') = Some [Some 3600000; Some 176400000] /\
    option_map D3.s_domain (yScale st') = Some [Some 150; Some 500].
Proof.
  destruct (X11_reset_scales D3.nice_domain Samples.chartState
              [Samples.spikeGroup] Samples.spike)
    as (stx & sty & st2 & sel2 & xs2 & ys2 & Hsx & Hsy & H2 & Hx & Hy & Hxd & _ & Hyd & _).
  - reflexivity.
  - repeat constructor; discriminate.
  - cbn [my_xScale] in Hsx. injection Hsx as <-.
    cbn [my_yScale] in Hsy. injection Hsy as <-.
    do 2 eexists. split; [exact H2|]. split.
    + rewrite Hx. cbn [option_map]. rewrite Hxd. vm_compute. reflexivity.
    + rewrite Hy. cbn [option_map]. rewrite Hyd. vm_compute. reflexivity.
Defined.

(** X12.  A line chart render of data with a first series succeeds.  It
    overwrites the key of every value, in every series, with the date
    [new Date(key * 1000)]: for every key whose thousandfold lies within
    the range of dates, the key stored is a thousand times the key.  It
    changes nothing else in the array: the series, their names, the
    number of values and the values stay.  In the closure it leaves
    width, height, margin, colours, dispatcher and axis label as they
    were. *)
Theorem X12_keys_converted
        (dataParse : list LineChart.series -> LineChart.sliced)
        (st : LineChart.state) (data : list LineChart.series) :
  data <> [] ->
  exists st' data',
    LineChart.render dataParse st data = Ok (st', data') /\
    map LineChart.series_key data' = map LineChart.series_key data /\
    Forall2
      (fun s s' =>
         map LineChart.value (LineChart.values s')
           = map LineChart.value (LineChart.values s) /\
         Forall2
           (fun b b' =>
              (Z.abs (LineChart.key b * 1000) <= JS.maxTime)%Z ->
              LineChart.key b' = (LineChart.key b * 1000)%Z /\
              newDate (nmul (Some (inject_Z (LineChart.key b))) (Some 1000))
                = Some (inject_Z (LineChart.key b')))
           (LineChart.values s) (LineChart.values s'))
      data data' /\
    LineChart.width st' = LineChart.width st /\
    LineChart.height st' = LineChart.height st /\
    LineChart.margin st' = LineChart.margin st /\
    LineChart.colors st' = LineChart.colors st /\
    LineChart.dispatch st' = LineChart.dispatch st /\
    LineChart.yAxisLabel st' = LineChart.yAxisLabel st.
Proof.
  intros Hne. destruct data as [|first rest]; [now elim Hne|].
  destruct (LineMore.render_ok dataParse st first rest)
    as (st' & Hr & _ & Hw & Hh & Hm & Hc & Hd & Hl & _).
  exists st', (LineChart.convertDates (first :: rest)).
  split; [exact Hr|]. split.
  { unfold LineChart.convertDates. rewrite map_map. reflexivity. }
  split.
  { unfold LineChart.convertDates. generalize (first :: rest). intros l.
    induction l as [|s l IH]; cbn [map]; constructor; [|exact IH].
    cbn [LineChart.values]. rewrite !map_map. split; [reflexivity|].
    induction (LineChart.values s) as [|b bs IHb]; cbn [map]; constructor;
      [|exact IHb].
    cbn [LineChart.key]. intros Hb. split; [reflexivity|].
    exact (DateFacts.newDate_times (LineChart.key b) 1000 Hb). }
  repeat split; assumption.
Qed.

Lemma X12_keys_converted_witness :
  exists st' data',
    LineChart.render Samples.parseSample (LineChart.default []) Samples.visits
      = Ok (st', data') /\
    map (fun s => map LineChart.key (LineChart.values s)) data'
      = [[1000; 3000; 2000]]%Z.
Proof.
  destruct (X12_keys_converted Samples.parseSample (LineChart.default [])
              Samples.visits)
    as (st' & data' & Hr & _ & Hf & _).
  - discriminate.
  - exists st', data'. split; [exact Hr|].
    inversion Hf as [|s s' l l' [_ Hk] Hnil]; subst.
    inversion Hnil; subst. cbn [map LineChart.values] in Hk |- *.
    inversion Hk as [|b1 b1' ? ? H1 Hk1 E1 E1']; subst.
    inversion Hk1 as [|b2 b2' ? ? H2 Hk2 E2 E2']; subst.
    inversion Hk2 as [|b3 b3' ? ? H3 Hk3 E3 E3']; subst.
    inversion Hk3; subst.
    destruct H1 as [K1 _]; [vm_compute; discriminate|].
    destruct H2 as [K2 _]; [vm_compute; discriminate|].
    destruct H3 as [K3 _]; [vm_compute; discriminate|].
    cbn [map]. rewrite K1, K2, K3. reflexivity.
Defined.


(** X15.  When a render throws.  A candleSticks render throws, the host's
    [TypeError], when the selection is empty or one of its groups has no
    datum; with a datum on every group it succeeds, whatever the values
    of the series are.  A circularLabels render throws, the host's
    [TypeError] again, when the selection is not empty and no radial
    scale is set; otherwise it succeeds, whatever data is bound. *)
Theorem X15_render_throws (st : state) (sel : selection)
        (D : Type) (lst : CircularLabels.state) (lsel : list (CircularLabels.node D)) :
  (sel <> [] /\ Forall has_datum sel ->
   exists st' sel', my st sel = Ok (st', sel')) /\
  (sel = [] \/ Exists (fun g => g_datum g = None) sel ->
   my st sel = Threw HostTypeError) /\
  (lsel = [] \/ CircularLabels.radialScale lst <> None ->
   exists r, CircularLabels.my D lst lsel = Ok r) /\
  (lsel <> [] /\ CircularLabels.radialScale lst = None ->
   CircularLabels.my D lst lsel = Threw HostTypeError).
Proof.
  split; [|split; [|split]].
  - intros [Hne Hall].
    destruct (CandleFacts.my_spec st sel Hne Hall)
      as (d0 & st1 & xs & ys & cs & cs' & sel' & _ & _ & _ & _ & _ & Hmy & _).
    eauto.
  - apply CandleFacts.my_throws.
  - apply LabelFacts.labels_ok.
  - intros [Hne Hs]. now apply LabelFacts.labels_throw.
Qed.
